(** * GLSP socket server contribution: launch, readiness and connection

    A shallow embedding of [glsp-socket-server-contribution.ts]
    (class [GLSPSocketServerContribution] and the utility [getPort]) together
    with the properties of the server process supervisor that the
    specification states about it.

    Conventions of the embedding:
    - a JavaScript string is a [string] (a sequence of 8-bit code units);
    - a JavaScript [number] is either [NaN] or an integer [Num z]; ports and
      the results of [Number.parseInt] are of that shape;
    - an optional property ([executable?], [host?], [additionalArgs?],
      [defaultPort?]) is an [option], [None] standing for [undefined];
    - the contribution object and the outside world (spawned processes,
      sockets, listeners, log) are threaded explicitly through a small
      state-and-exception monad [M]. *)

From Stdlib Require Import String Ascii ZArith List Bool Lia Arith.
From Stdlib Require Import DecimalString.
From Stdlib Require DecimalPos.
Import ListNotations.

Local Open Scope string_scope.
Local Open Scope list_scope.

(** ** JavaScript values used by the contribution *)

Module JS.

(** [number], restricted to the values the contribution manipulates:
    not-a-number and the integers.  The embedding is exact on the safe
    integers, of absolute value at most [MAX_SAFE_INTEGER]: there
    [number_toString] is the decimal rendering of the template literal and
    [parseInt10] returns the integer that was read.  Beyond them JavaScript
    rounds to a double and prints an exponent from [1e21] on; fractional and
    infinite numbers are not represented.  Statements that depend on the
    value of a parse or on a rendering are made for safe integers only. *)
Inductive number : Type :=
| NaN : number
| Num (z : Z) : number.

(** [Number.MAX_SAFE_INTEGER]. *)
Definition MAX_SAFE_INTEGER : Z := 9007199254740991.

(** [Number.isSafeInteger]. *)
Definition isSafeInteger (n : number) : bool :=
  match n with
  | NaN => false
  | Num z => ((- MAX_SAFE_INTEGER <=? z) && (z <=? MAX_SAFE_INTEGER))%Z
  end.

(** The port check of [net.Socket.connect]: an integer from 0 to 65535. *)
Definition isValidPort (n : number) : bool :=
  match n with
  | NaN => false
  | Num z => ((0 <=? z) && (z <? 65536))%Z
  end.

(** The global [isNaN]. *)
Definition isNaN (n : number) : bool :=
  match n with
  | NaN => true
  | Num _ => false
  end.

(** Truthiness of a [number]: [0] and [NaN] are falsy. *)
Definition truthy_number (n : number) : bool :=
  match n with
  | NaN => false
  | Num z => negb (Z.eqb z 0)
  end.

(** Truthiness of an optional string: [undefined] and [''] are falsy. *)
Definition truthy_opt_string (o : option string) : bool :=
  match o with
  | None => false
  | Some s => negb (String.eqb s "")
  end.

(** Template-literal conversion [`${n}`] of a number: the decimal rendering
    of an integer, as JavaScript gives it below [1e21]. *)
Definition number_toString (n : number) : string :=
  match n with
  | NaN => "NaN"
  | Num z => NilZero.string_of_int (Z.to_int z)
  end.

(** [s.startsWith(p)]. *)
Definition startsWith (s p : string) : bool := String.prefix p s.

(** [s.substring(n)]: the suffix of [s] from index [n]. *)
Definition substring_from (s : string) (n : nat) : string :=
  String.substring n (String.length s - n) s.

(** [s.endsWith(p)]. *)
Definition endsWith (s p : string) : bool :=
  (String.length p <=? String.length s)%nat
  && String.eqb (substring_from s (String.length s - String.length p)) p.

(** [s.replace(pat, repl)] with a string pattern: only the first
    occurrence of [pat] is replaced. *)
Fixpoint replace (s pat repl : string) : string :=
  if String.prefix pat s then repl ++ substring_from s (String.length pat)
  else match s with
       | EmptyString => EmptyString
       | String c s' => String c (replace s' pat repl)
       end.

(** The last code unit of [s], if any. *)
Fixpoint lastChar (s : string) : option ascii :=
  match s with
  | EmptyString => None
  | String c EmptyString => Some c
  | String _ s' => lastChar s'
  end.

(** [s.includes(pat)]. *)
Fixpoint includes (s pat : string) : bool :=
  String.prefix pat s
  || match s with
     | EmptyString => false
     | String _ s' => includes s' pat
     end.

(** White space skipped by [parseInt] (code units below 256). *)
Definition isWhiteSpace (c : ascii) : bool :=
  let n := nat_of_ascii c in
  ((9 <=? n) && (n <=? 13) || (n =? 32) || (n =? 160))%nat.

Fixpoint trimStart (s : string) : string :=
  match s with
  | String c s' => if isWhiteSpace c then trimStart s' else s
  | EmptyString => EmptyString
  end.

Definition digit (c : ascii) : option Z :=
  let n := nat_of_ascii c in
  if ((48 <=? n) && (n <=? 57))%nat then Some (Z.of_nat (n - 48)) else None.

(** Value of the longest prefix of decimal digits; [acc] is the value read
    so far, [None] when no digit has been read. *)
Fixpoint digits (s : string) (acc : option Z) : option Z :=
  match s with
  | String c s' =>
      match digit c with
      | Some d =>
          digits s' (Some (10 * match acc with Some a => a | None => 0 end + d)%Z)
      | None => acc
      end
  | EmptyString => acc
  end.

(** [Number.parseInt(s, 10)]: the integer that is read, which is the result
    of JavaScript whenever it is a safe integer. *)
Definition parseInt10 (s : string) : number :=
  let s := trimStart s in
  let '(sign, s) :=
    match s with
    | String "-"%char s' => ((-1)%Z, s')
    | String "+"%char s' => (1%Z, s')
    | _ => (1%Z, s)
    end in
  match digits s None with
  | Some v => Num (sign * v)
  | None => NaN
  end.

End JS.

Import JS.

(** ** [getPort] *)

(** The normalised key [`--${argsKey.replace('--', '').replace('=', '')}=`]. *)
Definition normalizedKey (argsKey : string) : string :=
  "--" ++ replace (replace argsKey "--" "") "=" "" ++ "=".

(** [getPort(argsKey, defaultPort)]; [argv] is [process.argv]. *)
Definition getPort (argv : list string) (argsKey : string)
    (defaultPort : option number) : number :=
  let argsKey := normalizedKey argsKey in
  let args := filter (fun a => startsWith a argsKey) argv in
  if (0 <? length args)%nat then
    parseInt10 (substring_from (nth 0 args "") (String.length argsKey))
  else
    match defaultPort with
    | Some p => if truthy_number p then p else NaN
    | None => NaN
    end.

(** Port resolution as the specification words it: the first token of the
    form [--<argsKey>=<value>], its value parsed in base 10; otherwise the
    default when one is supplied, and not-a-number when none is. *)
Definition resolvePort_spec (argsKey : string) (args : list string)
    (defaultPort : option number) : number :=
  let form := ("--" ++ argsKey ++ "=")%string in
  match find (fun a => startsWith a form) args with
  | Some token => parseInt10 (substring_from token (String.length form))
  | None =>
      match defaultPort with
      | Some p => p
      | None => NaN
      end
  end.

(** ** Errors, the readiness future and the options *)

(** [new Error(message)]. *)
Inductive Error : Type :=
| MkError (message : string).

(** The one-shot future [Deferred<void>]: the promise behind it is settled
    by the first call of [resolve] or [reject]; later calls change nothing. *)
Module Deferred.

Inductive state : Type :=
| unresolved
| resolved
| rejected (err : Error).

Definition resolve (d : state) : state :=
  match d with
  | unresolved => resolved
  | _ => d
  end.

Definition reject (err : Error) (d : state) : state :=
  match d with
  | unresolved => rejected err
  | _ => d
  end.

End Deferred.

(** [START_UP_COMPLETE_MSG]. *)
Definition START_UP_COMPLETE_MSG : string := "[GLSP-Server]:Startup completed".

(** [net.TcpSocketConnectOpts], the two properties that are read. *)
Record TcpSocketConnectOpts : Type := {
  port : number;
  host : option string
}.

(** The client channel: its identity and whether it is an instance of
    [ForwardingChannel]. *)
Record Channel : Type := {
  channelId : nat;
  instanceofForwardingChannel : bool
}.

(** What [toDispose] holds. *)
Inductive Disposable : Type :=
| SocketConnectionForwarder (clientChannel : Channel) (socket : nat)
| DestroySocket (socket : nat)
| KillProcess (pid : nat).

(** Listeners on a socket's ['error'] event. *)
Inductive ErrorListener : Type :=
| FireOnErrorEmitter (clientChannel : Channel)
| LogAndDrop.

(** Effects on the outside world, in the order they happen. *)
Inductive Effect : Type :=
| Spawn (command : string) (args : list string)
| ProcessKill (pid : nat)
| SocketCreate (socket : nat)
| SocketConnect (socket : nat) (opts : TcpSocketConnectOpts)
| SocketDestroy (socket : nat)
| ForwarderRelease (clientChannel : Channel) (socket : nat)
| ChannelErrorEvent (clientChannel : Channel) (err : Error)
| LogError (err : Error)
| SocketEnd (socket : nat)
| ChannelClose (clientChannel : Channel).

Record World : Type := {
  effects : list Effect;
  nextPid : nat;
  nextSocket : nat;
  errorListeners : list (nat * ErrorListener)
}.

Definition emptyWorld : World :=
  {| effects := []; nextPid := 0; nextSocket := 0; errorListeners := [] |}.

(** Completion of a call: normal return or a thrown error.  For an [async]
    function or a promise that is awaited, [Throw] is the rejection. *)
Inductive Completion (A : Type) : Type :=
| Normal (a : A)
| Throw (e : Error).
Arguments Normal {A} a.
Arguments Throw {A} e.

(** The promise that [launch] hands to its caller. *)
Inductive Promise : Type :=
| onReadyDeferred_promise.

Definition nonNull (o : option string) : string :=
  match o with
  | Some s => s
  | None => "undefined"
  end.

(** ** The contribution *)

Section Contribution.

(** The inherited [GLSPServerContributionOptions] and their defaults
    ([GLSPServerContributionOptions.createDefaultOptions()]), declared in
    [glsp-server-contribution.ts]. *)
Variable ServerContributionOptions : Type.
Variable serverDefaultOptions : ServerContributionOptions.

(** [fs.existsSync]. *)
Variable existsSync : string -> bool.

(** Whether the promise of [spawnProcessAsync(command, args)] rejects, and
    with which error. *)
Variable spawnRejects : string -> list string -> option Error.

(** The [RangeError] with code [ERR_SOCKET_BAD_PORT] that
    [net.Socket.connect] throws for a port that it does not accept. *)
Variable socketBadPort : number -> Error.

(** [GLSPSocketServerContributionOptions]. *)
Record GLSPSocketServerContributionOptions : Type := {
  inherited : ServerContributionOptions;
  executable : option string;
  socketConnectionOptions : TcpSocketConnectOpts;
  additionalArgs : option (list string)
}.

(** [Partial<GLSPSocketServerContributionOptions>]: [None] is a property
    that is not supplied. *)
Record PartialOptions : Type := {
  inherited_opt : option ServerContributionOptions;
  executable_opt : option string;
  socketConnectionOptions_opt : option TcpSocketConnectOpts;
  additionalArgs_opt : option (list string)
}.

(** [GLSPSocketServerContributionOptions.createDefaultOptions()]. *)
Definition createDefaultOptions : GLSPSocketServerContributionOptions :=
  {| inherited := serverDefaultOptions;
     executable := None;
     socketConnectionOptions := {| port := NaN; host := None |};
     additionalArgs := None |}.

Definition spread {A : Type} (default : A) (o : option A) : A :=
  match o with
  | Some a => a
  | None => default
  end.

(** [GLSPSocketServerContributionOptions.configure(options)]:
    [{ ...createDefaultOptions(), ...options }]. *)
Definition configure (options : PartialOptions)
    : GLSPSocketServerContributionOptions :=
  let d := createDefaultOptions in
  {| inherited := spread (inherited d) (inherited_opt options);
     executable :=
       match executable_opt options with
       | Some e => Some e
       | None => executable d
       end;
     socketConnectionOptions :=
       spread (socketConnectionOptions d) (socketConnectionOptions_opt options);
     additionalArgs :=
       match additionalArgs_opt options with
       | Some a => Some a
       | None => additionalArgs d
       end |}.

(** The fields of a [GLSPSocketServerContribution] object. *)
Record Contribution : Type := {
  options : GLSPSocketServerContributionOptions;
  onReadyDeferred : Deferred.state;
  toDispose : list Disposable
}.

(** [initialize()] on a new object: [onReadyDeferred = new Deferred()],
    [options = configure(createContributionOptions())]. *)
Definition initialize (createContributionOptions : PartialOptions)
    : Contribution :=
  {| options := configure createContributionOptions;
     onReadyDeferred := Deferred.unresolved;
     toDispose := [] |}.

Record State : Type := {
  this : Contribution;
  world : World
}.

(** *** The monad: state and exceptions (state changes survive a throw) *)

Definition M (A : Type) : Type := State -> Completion A * State.

Definition ret {A : Type} (a : A) : M A := fun st => (Normal a, st).

Definition bind {A B : Type} (c : M A) (k : A -> M B) : M B :=
  fun st =>
    match c st with
    | (Normal a, st') => k a st'
    | (Throw e, st') => (Throw e, st')
    end.

Definition throw {A : Type} (e : Error) : M A := fun st => (Throw e, st).

(** [try { c } catch (error) { handler(error) }]. *)
Definition tryCatch (c : M unit) (handler : Error -> M unit) : M unit :=
  fun st =>
    match c st with
    | (Normal a, st') => (Normal a, st')
    | (Throw e, st') => handler e st'
    end.

Definition gets {A : Type} (f : State -> A) : M A := fun st => (Normal (f st), st).

Definition modifyThis (f : Contribution -> Contribution) : M unit :=
  fun st => (Normal tt, {| this := f (this st); world := world st |}).

Definition modifyWorld (f : World -> World) : M unit :=
  fun st => (Normal tt, {| this := this st; world := f (world st) |}).

Definition perform (e : Effect) (w : World) : World :=
  {| effects := effects w ++ [e];
     nextPid := nextPid w;
     nextSocket := nextSocket w;
     errorListeners := errorListeners w |}.

Definition setDeferred (d : Deferred.state) (c : Contribution) : Contribution :=
  {| options := options c; onReadyDeferred := d; toDispose := toDispose c |}.

(** [this.toDispose.push(d)]. *)
Definition pushToDispose (d : Disposable) : M unit :=
  modifyThis (fun c =>
    {| options := options c;
       onReadyDeferred := onReadyDeferred c;
       toDispose := toDispose c ++ [d] |}).

(** [this.onReadyDeferred.resolve()] and [this.onReadyDeferred.reject(error)]. *)
Definition onReadyDeferred_resolve : M unit :=
  modifyThis (fun c => setDeferred (Deferred.resolve (onReadyDeferred c)) c).

Definition onReadyDeferred_reject (error : Error) : M unit :=
  modifyThis (fun c => setDeferred (Deferred.reject error (onReadyDeferred c)) c).


Notation "x <- c ;; k" := (bind c (fun x => k))
  (at level 61, c at next level, right associativity).
Notation "c ;;; k" := (bind c (fun _ => k))
  (at level 61, right associativity).

(** *** Launching the server process *)

(** Modelled from the spec: [spawnProcessAsync] of
    [BaseGLSPServerContribution] ([glsp-server-contribution.ts]).  It spawns
    exactly one OS process for the command and the argument vector; the
    process is killed when the owning session is disposed; a spawn failure
    rejects the returned promise. *)
Definition spawnProcessAsync (command : string) (args : list string) : M nat :=
  fun st =>
    let w := perform (Spawn command args) (world st) in
    match spawnRejects command args with
    | Some e => (Throw e, {| this := this st; world := w |})
    | None =>
        let pid := nextPid w in
        (pushToDispose (KillProcess pid) ;;; ret pid)
          {| this := this st;
             world := {| effects := effects w;
                         nextPid := S pid;
                         nextSocket := nextSocket w;
                         errorListeners := errorListeners w |} |}
    end.

(** [getJavaProcessJvmArgs()]. *)
Definition getJavaProcessJvmArgs : list string :=
  ["--add-opens"; "java.base/java.util=ALL-UNNAMED"].

(** The two conditional [args.push] calls shared by both launchers. *)
Definition pushHostAndAdditionalArgs
    (o : GLSPSocketServerContributionOptions) (args : list string) : list string :=
  let args :=
    if truthy_opt_string (host (socketConnectionOptions o))
    then args ++ ["--host"; nonNull (host (socketConnectionOptions o))]
    else args in
  match additionalArgs o with
  | Some extra => args ++ extra
  | None => args
  end.

(** [launchJavaProcess()]. *)
Definition launchJavaProcess : M nat :=
  o <- gets (fun st => options (this st)) ;;
  let args :=
    getJavaProcessJvmArgs
      ++ ["-jar"; nonNull (executable o); "--port";
          number_toString (port (socketConnectionOptions o))] in
  spawnProcessAsync "java" (pushHostAndAdditionalArgs o args).

(** [launchNodeProcess()]. *)
Definition launchNodeProcess : M nat :=
  o <- gets (fun st => options (this st)) ;;
  let args :=
    [nonNull (executable o); "--port";
     number_toString (port (socketConnectionOptions o))] in
  spawnProcessAsync "node" (pushHostAndAdditionalArgs o args).

(** The errors thrown by the guards of [launch] and [connectToSocketServer]. *)
Definition noExecutableError : Error :=
  MkError "Could not launch GLSP server. No executable path is provided via the contribution options".

Definition invalidPathError (exe : string) : Error :=
  MkError ("Could not launch GLSP server. The given server executable path is not valid: " ++ exe).

Definition launchPortError (p : number) : Error :=
  MkError ("Could not launch GLSP Server. The given server port is not a number: "
           ++ number_toString p).

Definition invalidExecutableError (exe : string) : Error :=
  MkError ("Could not launch GLSP Server. Invalid executable path " ++ exe).

Definition connectPortError (p : number) : Error :=
  MkError ("Could not connect to to GLSP Server. The given server port is not a number: "
           ++ number_toString p).

(** The body of the [try] block of [launch]. *)
Definition launchTry : M unit :=
  o <- gets (fun st => options (this st)) ;;
  if negb (truthy_opt_string (executable o)) then throw noExecutableError
  else if negb (existsSync (nonNull (executable o))) then
    throw (invalidPathError (nonNull (executable o)))
  else if isNaN (port (socketConnectionOptions o)) then
    throw (launchPortError (port (socketConnectionOptions o)))
  else if endsWith (nonNull (executable o)) ".jar" then
    launchJavaProcess ;;; ret tt
  else if endsWith (nonNull (executable o)) ".js" then
    launchNodeProcess ;;; ret tt
  else throw (invalidExecutableError (nonNull (executable o))).

(** [launch()]. *)
Definition launch : M Promise :=
  tryCatch launchTry (fun error => onReadyDeferred_reject error) ;;;
  ret onReadyDeferred_promise.

(** The state of a promise handed out by [launch]. *)
Definition promiseState (p : Promise) (st : State) : Deferred.state :=
  match p with
  | onReadyDeferred_promise => onReadyDeferred (this st)
  end.

(** [processLogInfo(line)]. *)
Definition processLogInfo (line : string) : M unit :=
  if startsWith line START_UP_COMPLETE_MSG then onReadyDeferred_resolve
  else ret tt.

(** *** Connecting to the server *)

(** [new net.Socket()]. *)
Definition newSocket : M nat :=
  fun st =>
    let w := world st in
    let s := nextSocket w in
    (Normal s,
     {| this := this st;
        world := {| effects := effects w ++ [SocketCreate s];
                    nextPid := nextPid w;
                    nextSocket := S s;
                    errorListeners := errorListeners w |} |}).

(** [socket.on('error', listener)]. *)
Definition socketOnError (socket : nat) (l : ErrorListener) : M unit :=
  modifyWorld (fun w =>
    {| effects := effects w;
       nextPid := nextPid w;
       nextSocket := nextSocket w;
       errorListeners := errorListeners w ++ [(socket, l)] |}).

(** [socket.connect(options)]: the port is checked at once, before any
    connection attempt; a port that is not an integer from 0 to 65535 makes
    the call throw. *)
Definition socketConnect (socket : nat) (opts : TcpSocketConnectOpts) : M unit :=
  if isValidPort (port opts) then modifyWorld (perform (SocketConnect socket opts))
  else throw (socketBadPort (port opts)).

(** Modelled from the spec: the constructor of [SocketConnectionForwarder]
    ([socket-connection-forwarder.ts]), as far as socket errors go: when the
    channel has no error-reporting channel, socket-level errors are logged
    and dropped. *)
Definition newSocketConnectionForwarder (clientChannel : Channel) (socket : nat)
    : M Disposable :=
  (if instanceofForwardingChannel clientChannel then ret tt
   else socketOnError socket LogAndDrop) ;;;
  ret (SocketConnectionForwarder clientChannel socket).

(** [forward(clientChannel, socket)]. *)
Definition forward (clientChannel : Channel) (socket : nat) : M unit :=
  f <- newSocketConnectionForwarder clientChannel socket ;;
  pushToDispose f.

(** [connectToSocketServer(clientChannel)]. *)
Definition connectToSocketServer (clientChannel : Channel) : M unit :=
  o <- gets (fun st => options (this st)) ;;
  if isNaN (port (socketConnectionOptions o)) then
    throw (connectPortError (port (socketConnectionOptions o)))
  else
    socket <- newSocket ;;
    forward clientChannel socket ;;;
    (if instanceofForwardingChannel clientChannel
     then socketOnError socket (FireOnErrorEmitter clientChannel)
     else ret tt) ;;;
    socketConnect socket (socketConnectionOptions o) ;;;
    pushToDispose (DestroySocket socket).

(** [connect(clientChannel)]. *)
Definition connect (clientChannel : Channel) : M unit :=
  connectToSocketServer clientChannel.

(** What a listener does with an error. *)
Definition callErrorListener (l : ErrorListener) (error : Error) : M unit :=
  match l with
  | FireOnErrorEmitter clientChannel =>
      modifyWorld (perform (ChannelErrorEvent clientChannel error))
  | LogAndDrop => modifyWorld (perform (LogError error))
  end.

Fixpoint callAll (ls : list ErrorListener) (error : Error) : M unit :=
  match ls with
  | [] => ret tt
  | l :: ls' => callErrorListener l error ;;; callAll ls' error
  end.

Definition listenersOf (socket : nat) (w : World) : list ErrorListener :=
  map snd (filter (fun sl => Nat.eqb (fst sl) socket) (errorListeners w)).

(** An ['error'] event on a socket: the listeners run in registration order;
    with no listener the event is thrown. *)
Definition emitSocketError (socket : nat) (error : Error) : M unit :=
  ls <- gets (fun st => listenersOf socket (world st)) ;;
  match ls with
  | [] => throw error
  | _ => callAll ls error
  end.

(** *** Events of the spawned process and of the session *)

Inductive ProcessEvent : Type :=
| OutputLine (line : string)
| Terminated (reason : Error).

(** Modelled from the spec: the handling of the termination (exit or error)
    of the spawned process, which belongs to [BaseGLSPServerContribution]
    ([glsp-server-contribution.ts]): it fails the readiness future.  Output
    lines go to [processLogInfo]. *)
Definition onProcessEvent (ev : ProcessEvent) : M unit :=
  match ev with
  | OutputLine line => processLogInfo line
  | Terminated reason => onReadyDeferred_reject reason
  end.

(** The state left by a call, whatever its completion. *)
Definition exec {A : Type} (c : M A) (st : State) : State := snd (c st).

(** The states of the readiness future after each event of a sequence. *)
Fixpoint readinessTrace {E : Type} (handler : E -> M unit) (evs : list E)
    (st : State) : list Deferred.state :=
  match evs with
  | [] => []
  | ev :: evs' =>
      let st' := exec (handler ev) st in
      onReadyDeferred (this st') :: readinessTrace handler evs' st'
  end.

(** How often the state changes along a trace that starts in [d]. *)
Fixpoint transitions (d : Deferred.state) (trace : list Deferred.state) : nat :=
  match trace with
  | [] => 0
  | d' :: trace' =>
      (match d, d' with
       | Deferred.unresolved, Deferred.unresolved => 0
       | Deferred.resolved, Deferred.resolved => 0
       | Deferred.rejected _, Deferred.rejected _ => 0
       | _, _ => 1
       end) + transitions d' trace'
  end.

(** A socket that was created and has neither been destroyed nor closed. *)
Definition isSocketCreate (socket : nat) (e : Effect) : bool :=
  match e with
  | SocketCreate s => Nat.eqb s socket
  | _ => false
  end.

Definition isSocketGone (socket : nat) (e : Effect) : bool :=
  match e with
  | SocketDestroy s | SocketEnd s => Nat.eqb s socket
  | _ => false
  end.

Definition socketAlive (socket : nat) (w : World) : bool :=
  existsb (isSocketCreate socket) (effects w)
  && negb (existsb (isSocketGone socket) (effects w)).

(** [socket.destroy()]: it destroys a socket that is still alive and does
    nothing on one that is already destroyed or closed. *)
Definition socketDestroy (socket : nat) (w : World) : World :=
  if socketAlive socket w then perform (SocketDestroy socket) w else w.

(** Modelled from the spec: what disposing one element of [toDispose] does.
    The disposable of line 174 calls [socket.destroy()]; the forwarder
    ([socket-connection-forwarder.ts]) releases its own resources; the
    disposable registered at spawn terminates the child process. *)
Definition disposeOne (d : Disposable) (w : World) : World :=
  match d with
  | SocketConnectionForwarder clientChannel socket =>
      perform (ForwarderRelease clientChannel socket) w
  | DestroySocket socket => socketDestroy socket w
  | KillProcess pid => perform (ProcessKill pid) w
  end.

(** Modelled from the spec: [dispose()] of [BaseGLSPServerContribution]
    ([glsp-server-contribution.ts]): disposing the owning session
    terminates the child process and destroys the socket if it is open, and
    only the first invocation has an effect.  The collection [toDispose] is
    disposed: its elements are disposed, last pushed first, and it is left
    empty. *)
Definition dispose : M unit :=
  ds <- gets (fun st => toDispose (this st)) ;;
  modifyWorld (fun w => fold_left (fun w d => disposeOne d w) (rev ds) w) ;;;
  modifyThis (fun c =>
    {| options := options c;
       onReadyDeferred := onReadyDeferred c;
       toDispose := [] |}).

(** What can end a bound session: an explicit [dispose()], the socket side
    closing (EOF or close of [socket]) and the channel side closing (close
    or dispose of [clientChannel]). *)
Inductive SessionEvent : Type :=
| DisposeCalled
| SocketClosed (socket : nat)
| ChannelClosed (clientChannel : Channel).

(** The forwarders that are still bound, with their two sides. *)
Fixpoint forwarders (ds : list Disposable) : list (Channel * nat) :=
  match ds with
  | [] => []
  | SocketConnectionForwarder clientChannel socket :: ds' =>
      (clientChannel, socket) :: forwarders ds'
  | _ :: ds' => forwarders ds'
  end.

Definition channelOfSocket (socket : nat) (ds : list Disposable) : option Channel :=
  option_map fst (find (fun cs => Nat.eqb (snd cs) socket) (forwarders ds)).

Definition socketOfChannel (clientChannel : Channel) (ds : list Disposable)
    : option nat :=
  option_map snd
    (find (fun cs => Nat.eqb (channelId (fst cs)) (channelId clientChannel))
       (forwarders ds)).

(** Modelled from the spec: the close handlers of
    [SocketConnectionForwarder] ([socket-connection-forwarder.ts]).  Either
    side closing triggers the disposal of the other side and of the session
    itself: when the socket of a bound forwarder closes, the client channel
    is closed and the session is disposed; when the client channel of a
    bound forwarder closes, the socket is destroyed and the session is
    disposed.  A side whose forwarder is no longer bound triggers nothing. *)
Definition onSessionEvent (ev : SessionEvent) : M unit :=
  match ev with
  | DisposeCalled => dispose
  | SocketClosed socket =>
      ds <- gets (fun st => toDispose (this st)) ;;
      match channelOfSocket socket ds with
      | Some clientChannel =>
          modifyWorld (perform (SocketEnd socket)) ;;;
          modifyWorld (perform (ChannelClose clientChannel)) ;;;
          dispose
      | None => ret tt
      end
  | ChannelClosed clientChannel =>
      ds <- gets (fun st => toDispose (this st)) ;;
      match socketOfChannel clientChannel ds with
      | Some socket => modifyWorld (socketDestroy socket) ;;; dispose
      | None => ret tt
      end
  end.

Fixpoint runEvents {E : Type} (handler : E -> M unit) (evs : list E) : M unit :=
  match evs with
  | [] => ret tt
  | ev :: evs' => handler ev ;;; runEvents handler evs'
  end.

Definition countEffects (p : Effect -> bool) (st : State) : nat :=
  length (filter p (effects (world st))).

Definition isSpawn (e : Effect) : bool :=
  match e with Spawn _ _ => true | _ => false end.

Definition isProcessKill (e : Effect) : bool :=
  match e with ProcessKill _ => true | _ => false end.

Definition isSocketDestroy (e : Effect) : bool :=
  match e with SocketDestroy _ => true | _ => false end.

Definition isChannelClose (e : Effect) : bool :=
  match e with ChannelClose _ => true | _ => false end.

Definition isSocketEffect (e : Effect) : bool :=
  match e with
  | SocketCreate _ | SocketConnect _ _ | SocketDestroy _ => true
  | _ => false
  end.

(** A new contribution in a world where nothing has happened yet. *)
Definition initialState (createContributionOptions : PartialOptions) : State :=
  {| this := initialize createContributionOptions; world := emptyWorld |}.

(** The state a rejection of the readiness future leaves. *)
Definition rejectedWith (e : Error) (st : State) : State :=
  {| this := setDeferred (Deferred.reject e (onReadyDeferred (this st))) (this st);
     world := world st |}.

(** The state after [await spawnProcessAsync(command, args)] inside the
    [try] block of [launch]: a rejection is caught and fails the future. *)
Definition afterSpawn (command : string) (args : list string) (st : State) : State :=
  match spawnProcessAsync command args st with
  | (Normal _, st') => st'
  | (Throw e, st') => rejectedWith e st'
  end.

(** *** Vocabulary of the specification *)

(** The options pass every guard of [launch]. *)
Definition launchable (o : GLSPSocketServerContributionOptions) : bool :=
  truthy_opt_string (executable o)
  && existsSync (nonNull (executable o))
  && negb (isNaN (port (socketConnectionOptions o)))
  && (endsWith (nonNull (executable o)) ".jar"
      || endsWith (nonNull (executable o)) ".js").

(** The specification's [ConfigurationError]: the errors thrown by the
    guards on the options. *)
Inductive ConfigurationError (o : GLSPSocketServerContributionOptions)
    : Error -> Prop :=
| CE_noExecutable : ConfigurationError o noExecutableError
| CE_invalidPath :
    ConfigurationError o (invalidPathError (nonNull (executable o)))
| CE_launchPort :
    ConfigurationError o (launchPortError (port (socketConnectionOptions o)))
| CE_invalidExecutable :
    ConfigurationError o (invalidExecutableError (nonNull (executable o)))
| CE_connectPort :
    ConfigurationError o (connectPortError (port (socketConnectionOptions o))).

(** The tail of the argument vector as the specification words it: the port,
    the host if and only if one is configured, the extra arguments. *)
Definition portHostExtra_spec (o : GLSPSocketServerContributionOptions)
    : list string :=
  ["--port"; number_toString (port (socketConnectionOptions o))]
    ++ match host (socketConnectionOptions o) with
       | Some h => ["--host"; h]
       | None => []
       end
    ++ match additionalArgs o with
       | Some extra => extra
       | None => []
       end.

(** The Java-style vector as the specification words it. *)
Definition javaArgs_spec (o : GLSPSocketServerContributionOptions)
    : list string :=
  getJavaProcessJvmArgs ++ ["-jar"; nonNull (executable o)] ++ portHostExtra_spec o.

(** The same tail with the host only when it is a non-empty string. *)
Definition portHostExtra (o : GLSPSocketServerContributionOptions)
    : list string :=
  ["--port"; number_toString (port (socketConnectionOptions o))]
    ++ match host (socketConnectionOptions o) with
       | Some h => if String.eqb h "" then [] else ["--host"; h]
       | None => []
       end
    ++ match additionalArgs o with
       | Some extra => extra
       | None => []
       end.

(** *** Further vocabulary *)

(** One step of [digits]: the digit [k] appended to the value read so far. *)
Definition pushDigit (acc : option Z) (k : Z) : option Z :=
  Some (10 * match acc with Some a => a | None => 0 end + k)%Z.

(** What [digits] reads from the decimal numeral [d], starting from [acc]. *)
Fixpoint uintValue (d : Decimal.uint) (acc : option Z) : option Z :=
  match d with
  | Decimal.Nil => acc
  | Decimal.D0 l => uintValue l (pushDigit acc 0)
  | Decimal.D1 l => uintValue l (pushDigit acc 1)
  | Decimal.D2 l => uintValue l (pushDigit acc 2)
  | Decimal.D3 l => uintValue l (pushDigit acc 3)
  | Decimal.D4 l => uintValue l (pushDigit acc 4)
  | Decimal.D5 l => uintValue l (pushDigit acc 5)
  | Decimal.D6 l => uintValue l (pushDigit acc 6)
  | Decimal.D7 l => uintValue l (pushDigit acc 7)
  | Decimal.D8 l => uintValue l (pushDigit acc 8)
  | Decimal.D9 l => uintValue l (pushDigit acc 9)
  end.

(** The command and the argument vector that [launch] hands to
    [spawnProcessAsync] once the guards are passed. *)
Definition spawnOf (o : GLSPSocketServerContributionOptions)
    : string * list string :=
  if endsWith (nonNull (executable o)) ".jar" then
    ("java",
     getJavaProcessJvmArgs ++ ["-jar"; nonNull (executable o)] ++ portHostExtra o)
  else ("node", [nonNull (executable o)] ++ portHostExtra o).

(** [launch()] called [n] times in a row. *)
Fixpoint launchTimes (n : nat) : M unit :=
  match n with
  | 0 => ret tt
  | S n' => launch ;;; launchTimes n'
  end.

(** Does some line of the output start with the sentinel? *)
Definition announcesStartup (lines : list string) : bool :=
  existsb (fun line => startsWith line START_UP_COMPLETE_MSG) lines.

(** * Properties *)

(** ** Strings *)

Lemma prefix_app (p r : string) : String.prefix p (p ++ r)%string = true.
Proof.
  induction p as [|c p IH]; simpl.
  - now destruct r.
  - destruct (ascii_dec c c) as [_|n]; [exact IH | now elim n].
Qed.

Lemma prefix_split (p s : string) :
  String.prefix p s = true -> exists r, s = (p ++ r)%string.
Proof.
  revert s; induction p as [|c p IH]; intros s H.
  - now exists s.
  - destruct s as [|d s]; simpl in H; [discriminate|].
    destruct (ascii_dec c d) as [->|]; [|discriminate].
    destruct (IH s H) as [r ->]. now exists r.
Qed.

Lemma startsWith_iff (s p : string) :
  startsWith s p = true <-> exists r, s = (p ++ r)%string.
Proof.
  unfold startsWith; split.
  - apply prefix_split.
  - intros [r ->]. apply prefix_app.
Qed.

Lemma includes_prefix (s pat : string) :
  includes s pat = false -> String.prefix pat s = false.
Proof.
  destruct s; simpl; intros H; apply orb_false_iff in H; exact (proj1 H).
Qed.

Lemma replace_absent (s pat repl : string) :
  includes s pat = false -> replace s pat repl = s.
Proof.
  induction s as [|c s IH]; intros H.
  - cbn [replace]. rewrite (includes_prefix _ _ H). reflexivity.
  - pose proof (includes_prefix _ _ H) as Hp.
    simpl in H. apply orb_false_iff in H. destruct H as [_ H].
    cbn [replace]. rewrite Hp. now rewrite IH.
Qed.

Lemma substring_from_0 (s : string) : substring_from s 0 = s.
Proof.
  unfold substring_from. rewrite Nat.sub_0_r.
  induction s as [|c s IH]; simpl; [reflexivity | now rewrite IH].
Qed.

Lemma substring_from_split (s : string) (n : nat) :
  n <= String.length s -> exists r, s = (r ++ substring_from s n)%string.
Proof.
  revert s; induction n as [|n IH]; intros s H.
  - exists ""%string. now rewrite substring_from_0.
  - destruct s as [|c s]; simpl in H; [lia|].
    destruct (IH s) as [r Hr]; [lia|].
    exists (String c r). simpl. unfold substring_from in *. simpl.
    now rewrite <- Hr.
Qed.

Lemma endsWith_split (s p : string) :
  endsWith s p = true -> exists r, s = (r ++ p)%string.
Proof.
  unfold endsWith. intros H. apply andb_true_iff in H. destruct H as [Hl He].
  apply String.eqb_eq in He.
  destruct (substring_from_split s (String.length s - String.length p)) as [r Hr];
    [lia|].
  exists r. now rewrite He in Hr.
Qed.

Lemma lastChar_app (r p : string) :
  p <> ""%string -> lastChar (r ++ p) = lastChar p.
Proof.
  intros Hp. induction r as [|c r IH]; [reflexivity|].
  simpl. destruct (r ++ p)%string eqn:E; [|exact IH].
  destruct r; simpl in E; [now elim Hp | discriminate].
Qed.

Lemma endsWith_js_not_jar (s : string) :
  endsWith s ".js" = true -> endsWith s ".jar" = false.
Proof.
  intros Hjs. destruct (endsWith s ".jar") eqn:Hjar; [|reflexivity].
  destruct (endsWith_split _ _ Hjs) as [r1 E1].
  destruct (endsWith_split _ _ Hjar) as [r2 E2].
  assert (H1 : lastChar s = lastChar ".js")
    by (rewrite E1; apply lastChar_app; discriminate).
  assert (H2 : lastChar s = lastChar ".jar")
    by (rewrite E2; apply lastChar_app; discriminate).
  rewrite H1 in H2. discriminate.
Qed.

(** ** Port resolution *)

Lemma filter_skip (key : string) (pre : list string) (rest : list string) :
  (forall a, In a pre -> startsWith a key = false) ->
  filter (fun a => startsWith a key) (pre ++ rest)
  = filter (fun a => startsWith a key) rest.
Proof.
  induction pre as [|a pre IH]; intros H; simpl; [reflexivity|].
  rewrite (H a (or_introl eq_refl)). apply IH.
  intros b Hb. apply H. now right.
Qed.

Lemma getPort_first_match (argv pre post : list string) (t argsKey : string)
    (defaultPort : option number) :
  argv = pre ++ t :: post ->
  (forall a, In a pre -> startsWith a (normalizedKey argsKey) = false) ->
  startsWith t (normalizedKey argsKey) = true ->
  getPort argv argsKey defaultPort
  = parseInt10 (substring_from t (String.length (normalizedKey argsKey))).
Proof.
  intros -> Hpre Ht. unfold getPort.
  rewrite (filter_skip _ _ _ Hpre). cbn [filter]. rewrite Ht. reflexivity.
Qed.

Lemma getPort_no_match (argv : list string) (argsKey : string)
    (defaultPort : option number) :
  (forall a, In a argv -> startsWith a (normalizedKey argsKey) = false) ->
  getPort argv argsKey defaultPort
  = match defaultPort with
    | Some p => if truthy_number p then p else NaN
    | None => NaN
    end.
Proof.
  intros H. unfold getPort.
  rewrite <- (app_nil_r argv). rewrite (filter_skip _ _ _ H). reflexivity.
Qed.

(** C3, as amended.  [getPort] first normalises the key: the first ["--"]
    and then the first ["="] are removed from [argsKey], so that for a key
    containing neither the tokens looked for are [--<argsKey>=<value>].  The
    first argument that starts with the normalised key decides: the rest of
    that token is parsed as a base-10 integer.  When no argument matches,
    the result is not-a-number if no default is supplied, and the default if
    one other than [0] is supplied.  The three examples of the specification
    evaluate as stated. *)
Theorem getPort_resolves (argv : list string) (argsKey : string)
    (defaultPort : option number) :
  (includes argsKey "--" = false -> includes argsKey "=" = false ->
   normalizedKey argsKey = ("--" ++ argsKey ++ "=")%string)
  /\ (forall pre t post,
        argv = pre ++ t :: post ->
        (forall a, In a pre -> startsWith a (normalizedKey argsKey) = false) ->
        startsWith t (normalizedKey argsKey) = true ->
        getPort argv argsKey defaultPort
        = parseInt10 (substring_from t (String.length (normalizedKey argsKey))))
  /\ ((forall a, In a argv -> startsWith a (normalizedKey argsKey) = false) ->
      (defaultPort = None -> getPort argv argsKey defaultPort = NaN)
      /\ (forall p, defaultPort = Some p -> p <> Num 0 ->
          getPort argv argsKey defaultPort = p))
  /\ getPort ["--foo=1"; "--port=8081"] "port" None = Num 8081
  /\ getPort [] "port" (Some (Num 5007)) = Num 5007
  /\ getPort [] "port" None = NaN.
Proof.
  split; [|split; [|split; [|repeat split]]].
  - intros H1 H2. unfold normalizedKey.
    rewrite (replace_absent _ _ _ H1), (replace_absent _ _ _ H2). reflexivity.
  - intros pre t post. apply getPort_first_match.
  - intros H. rewrite (getPort_no_match _ _ _ H). split.
    + now intros ->.
    + intros p -> Hp. destruct p as [|z]; [reflexivity|].
      simpl. destruct (Z.eqb_spec z 0) as [->|]; [now elim Hp | reflexivity].
Qed.

(** With the default [0] the truthiness test of [getPort] answers
    not-a-number. *)
Example getPort_zero_default : getPort [] "port" (Some (Num 0)) = NaN.
Proof. reflexivity. Qed.

(** ** The monad and the launchers *)

Lemma pushHostAndAdditionalArgs_eq (o : GLSPSocketServerContributionOptions)
    (pre : list string) :
  pushHostAndAdditionalArgs
    o (pre ++ ["--port"; number_toString (port (socketConnectionOptions o))])
  = pre ++ portHostExtra o.
Proof.
  unfold pushHostAndAdditionalArgs, portHostExtra, truthy_opt_string, nonNull.
  destruct (host (socketConnectionOptions o)) as [h|];
    [destruct (String.eqb h "")|]; destruct (additionalArgs o); simpl;
    repeat rewrite <- app_assoc; simpl; try rewrite app_nil_r; reflexivity.
Qed.

Lemma launch_unfold (st : State) :
  launch st
  = (Normal onReadyDeferred_promise,
     match launchTry st with
     | (Normal _, st') => st'
     | (Throw e, st') => rejectedWith e st'
     end).
Proof.
  unfold launch, tryCatch, bind, ret.
  destruct (launchTry st) as [[[]|e] st']; reflexivity.
Qed.

Lemma launchTry_unlaunchable (st : State) :
  launchable (options (this st)) = false ->
  exists e,
    ConfigurationError (options (this st)) e /\ launchTry st = (Throw e, st).
Proof.
  unfold launchable, launchTry, bind, gets, throw.
  intros H.
  destruct (truthy_opt_string (executable (options (this st)))); simpl in *;
    [|eexists; split; [apply CE_noExecutable | reflexivity]].
  destruct (existsSync (nonNull (executable (options (this st))))); simpl in *;
    [|eexists; split; [apply CE_invalidPath | reflexivity]].
  destruct (isNaN (port (socketConnectionOptions (options (this st))))); simpl in *;
    [eexists; split; [apply CE_launchPort | reflexivity]|].
  apply orb_false_iff in H. destruct H as [-> ->].
  eexists; split; [apply CE_invalidExecutable | reflexivity].
Qed.

Lemma launchable_inv (o : GLSPSocketServerContributionOptions) :
  launchable o = true ->
  truthy_opt_string (executable o) = true
  /\ existsSync (nonNull (executable o)) = true
  /\ isNaN (port (socketConnectionOptions o)) = false
  /\ (endsWith (nonNull (executable o)) ".jar" = true
      \/ endsWith (nonNull (executable o)) ".jar" = false
         /\ endsWith (nonNull (executable o)) ".js" = true).
Proof.
  unfold launchable. intros H.
  repeat (apply andb_true_iff in H; destruct H as [H ?]).
  repeat split; try assumption.
  - now apply negb_true_iff.
  - destruct (endsWith (nonNull (executable o)) ".jar"); [now left|].
    right. split; [reflexivity | assumption].
Qed.

(** The completion of an awaited spawn, its value dropped. *)
Lemma launchTry_java (st : State) :
  let o := options (this st) in
  launchable o = true ->
  endsWith (nonNull (executable o)) ".jar" = true ->
  launchTry st
  = (spawnProcessAsync "java"
       (getJavaProcessJvmArgs ++ ["-jar"; nonNull (executable o)] ++ portHostExtra o)
     ;;; ret tt) st.
Proof.
  intros o Hl Hjar. destruct (launchable_inv o Hl) as (Ht & He & Hn & _).
  unfold launchTry, launchJavaProcess.
  unfold bind, gets, ret. cbv beta iota.
  fold o. rewrite Ht, He, Hn, Hjar. cbn [negb]. fold o.
  replace (getJavaProcessJvmArgs
           ++ ["-jar"; nonNull (executable o); "--port";
               number_toString (port (socketConnectionOptions o))])
    with ((getJavaProcessJvmArgs ++ ["-jar"; nonNull (executable o)])
          ++ ["--port"; number_toString (port (socketConnectionOptions o))])
    by (rewrite <- app_assoc; reflexivity).
  rewrite pushHostAndAdditionalArgs_eq. rewrite <- app_assoc. reflexivity.
Qed.

Lemma launchTry_node (st : State) :
  let o := options (this st) in
  launchable o = true ->
  endsWith (nonNull (executable o)) ".js" = true ->
  launchTry st
  = (spawnProcessAsync "node" ([nonNull (executable o)] ++ portHostExtra o)
     ;;; ret tt) st.
Proof.
  intros o Hl Hjs. destruct (launchable_inv o Hl) as (Ht & He & Hn & _).
  pose proof (endsWith_js_not_jar _ Hjs) as Hjar.
  unfold launchTry, launchNodeProcess.
  unfold bind, gets, ret. cbv beta iota.
  fold o. rewrite Ht, He, Hn, Hjar, Hjs. cbn [negb]. fold o.
  change [nonNull (executable o); "--port";
          number_toString (port (socketConnectionOptions o))]
    with ([nonNull (executable o)]
          ++ ["--port"; number_toString (port (socketConnectionOptions o))]).
  rewrite pushHostAndAdditionalArgs_eq. reflexivity.
Qed.

Lemma launch_unlaunchable (st : State) :
  launchable (options (this st)) = false ->
  exists e,
    ConfigurationError (options (this st)) e
    /\ launch st = (Normal onReadyDeferred_promise, rejectedWith e st).
Proof.
  intros H. destruct (launchTry_unlaunchable st H) as (e & Hc & Ht).
  exists e. split; [exact Hc|]. rewrite launch_unfold, Ht. reflexivity.
Qed.

Lemma launch_java (st : State) :
  let o := options (this st) in
  launchable o = true ->
  endsWith (nonNull (executable o)) ".jar" = true ->
  launch st
  = (Normal onReadyDeferred_promise,
     afterSpawn "java"
       (getJavaProcessJvmArgs ++ ["-jar"; nonNull (executable o)] ++ portHostExtra o)
       st).
Proof.
  intros o Hl Hjar. rewrite launch_unfold, (launchTry_java st Hl Hjar).
  unfold afterSpawn, bind, ret.
  destruct (spawnProcessAsync _ _ st) as [[pid|e] st']; reflexivity.
Qed.

Lemma launch_node (st : State) :
  let o := options (this st) in
  launchable o = true ->
  endsWith (nonNull (executable o)) ".js" = true ->
  launch st
  = (Normal onReadyDeferred_promise,
     afterSpawn "node" ([nonNull (executable o)] ++ portHostExtra o) st).
Proof.
  intros o Hl Hjs. rewrite launch_unfold, (launchTry_node st Hl Hjs).
  unfold afterSpawn, bind, ret.
  destruct (spawnProcessAsync _ _ st) as [[pid|e] st']; reflexivity.
Qed.

(** Every launchable configuration spawns exactly once. *)
Lemma launch_launchable (st : State) :
  launchable (options (this st)) = true ->
  exists command args,
    launch st = (Normal onReadyDeferred_promise, afterSpawn command args st)
    /\ launchTry st = (spawnProcessAsync command args ;;; ret tt) st.
Proof.
  intros Hl. destruct (launchable_inv _ Hl) as (_ & _ & _ & [Hjar|[_ Hjs]]).
  - do 2 eexists. split; [apply (launch_java st Hl Hjar) | apply (launchTry_java st Hl Hjar)].
  - do 2 eexists. split; [apply (launch_node st Hl Hjs) | apply (launchTry_node st Hl Hjs)].
Qed.

Lemma afterSpawn_effects (command : string) (args : list string) (st : State) :
  effects (world (afterSpawn command args st))
  = effects (world st) ++ [Spawn command args].
Proof.
  unfold afterSpawn, spawnProcessAsync.
  destruct (spawnRejects command args); reflexivity.
Qed.

Lemma afterSpawn_deferred (command : string) (args : list string) (st : State) :
  onReadyDeferred (this (afterSpawn command args st))
  = match spawnRejects command args with
    | Some e => Deferred.reject e (onReadyDeferred (this st))
    | None => onReadyDeferred (this st)
    end.
Proof.
  unfold afterSpawn, spawnProcessAsync.
  destruct (spawnRejects command args); reflexivity.
Qed.

Lemma afterSpawn_options (command : string) (args : list string) (st : State) :
  options (this (afterSpawn command args st)) = options (this st).
Proof.
  unfold afterSpawn, spawnProcessAsync.
  destruct (spawnRejects command args); reflexivity.
Qed.

Lemma countEffects_app (p : Effect -> bool) (st st' : State) (es : list Effect) :
  effects (world st') = effects (world st) ++ es ->
  countEffects p st' = countEffects p st + length (filter p es).
Proof.
  unfold countEffects. intros ->. now rewrite filter_app, length_app.
Qed.

(** ** Launch: configuration errors and the argument vector *)

(** C2.  When the executable path is missing, or does not exist on disk, or
    the port is not-a-number, or the executable ends neither in [.jar] nor in
    [.js], [launch] fails with a configuration error: the promise it returns
    is rejected with that error, and the world is left as it was, so no
    process is spawned. *)
Theorem launch_rejects_invalid_options (st : State) :
  let o := options (this st) in
  onReadyDeferred (this st) = Deferred.unresolved ->
  executable o = None
  \/ existsSync (nonNull (executable o)) = false
  \/ isNaN (port (socketConnectionOptions o)) = true
  \/ (endsWith (nonNull (executable o)) ".jar" = false
      /\ endsWith (nonNull (executable o)) ".js" = false) ->
  exists e,
    ConfigurationError o e
    /\ fst (launch st) = Normal onReadyDeferred_promise
    /\ promiseState onReadyDeferred_promise (exec launch st) = Deferred.rejected e
    /\ world (exec launch st) = world st
    /\ countEffects isSpawn (exec launch st) = countEffects isSpawn st.
Proof.
  intros o Hd Hbad.
  assert (Hl : launchable o = false).
  { unfold launchable.
    destruct Hbad as [H|[H|[H|[H1 H2]]]].
    - rewrite H. reflexivity.
    - rewrite H. now rewrite andb_false_r.
    - rewrite H. simpl. now rewrite andb_false_r.
    - rewrite H1, H2. now rewrite andb_false_r. }
  destruct (launch_unlaunchable st Hl) as (e & Hc & He).
  exists e. unfold exec. rewrite He. simpl.
  repeat split; try assumption.
  now rewrite Hd.
Qed.

(** C4, as amended.  For launchable options whose executable ends in [.jar],
    [launch] spawns [java] once, with the fixed JVM flags, then ["-jar"], the
    executable path, ["--port"] and the port, then ["--host"] and the host if
    and only if a non-empty host is configured, then the extra arguments in
    order; for an executable ending in [.js] it spawns [node] with the same
    vector without the JVM flags and ["-jar"].  In particular ["-jar"], the
    path and ["--port" <port>] are consecutive, in that order. *)
Theorem launch_argument_vector (st : State) (exe : string) :
  let o := options (this st) in
  executable o = Some exe ->
  launchable o = true ->
  (endsWith exe ".jar" = true ->
     effects (world (exec launch st))
     = effects (world st)
         ++ [Spawn "java"
               (getJavaProcessJvmArgs ++ ["-jar"; exe]
                ++ ["--port"; number_toString (port (socketConnectionOptions o))]
                ++ match host (socketConnectionOptions o) with
                   | Some h => if String.eqb h "" then [] else ["--host"; h]
                   | None => []
                   end
                ++ match additionalArgs o with
                   | Some extra => extra
                   | None => []
                   end)]
     /\ exists front back,
          effects (world (exec launch st))
          = effects (world st)
              ++ [Spawn "java"
                    (front
                     ++ ["-jar"; exe; "--port";
                         number_toString (port (socketConnectionOptions o))]
                     ++ back)])
  /\ (endsWith exe ".js" = true ->
        effects (world (exec launch st))
        = effects (world st)
            ++ [Spawn "node"
                  ([exe]
                   ++ ["--port"; number_toString (port (socketConnectionOptions o))]
                   ++ match host (socketConnectionOptions o) with
                      | Some h => if String.eqb h "" then [] else ["--host"; h]
                      | None => []
                      end
                   ++ match additionalArgs o with
                      | Some extra => extra
                      | None => []
                      end)]).
Proof.
  intros o Hexe Hl.
  assert (Hnn : nonNull (executable o) = exe) by (rewrite Hexe; reflexivity).
  split.
  - intros Hjar. rewrite <- Hnn in Hjar.
    unfold exec. rewrite (launch_java st Hl Hjar). cbn [snd].
    rewrite afterSpawn_effects. fold o. rewrite Hnn.
    split; [reflexivity|].
    exists getJavaProcessJvmArgs. eexists. unfold portHostExtra. reflexivity.
  - intros Hjs. rewrite <- Hnn in Hjs.
    unfold exec. rewrite (launch_node st Hl Hjs). cbn [snd].
    rewrite afterSpawn_effects. fold o. rewrite Hnn. reflexivity.
Qed.

(** C5.  [launch] always returns its promise and never throws.  Every error
    raised inside its [try] block, be it a configuration error or the
    rejection of the spawn, ends up in the readiness future: the returned
    promise is rejected with it.  A configuration that cannot be launched
    and a spawn that fails both raise such an error.  One call of [launch]
    spawns at most once: nothing is retried. *)
Theorem launch_funnels_errors (st : State) :
  fst (launch st) = Normal onReadyDeferred_promise
  /\ (forall e, fst (launchTry st) = Throw e ->
        (ConfigurationError (options (this st)) e
         \/ exists command args, spawnRejects command args = Some e)
        /\ promiseState onReadyDeferred_promise (exec launch st)
           = Deferred.reject e (onReadyDeferred (this st))
        /\ (onReadyDeferred (this st) = Deferred.unresolved ->
            promiseState onReadyDeferred_promise (exec launch st)
            = Deferred.rejected e))
  /\ (launchable (options (this st)) = false ->
      exists e, fst (launchTry st) = Throw e)
  /\ (launchable (options (this st)) = true ->
      exists command args,
        effects (world (exec launch st))
        = effects (world st) ++ [Spawn command args]
        /\ forall e, spawnRejects command args = Some e ->
                     fst (launchTry st) = Throw e)
  /\ countEffects isSpawn (exec launch st) <= S (countEffects isSpawn st).
Proof.
  split; [rewrite launch_unfold; reflexivity|].
  destruct (launchable (options (this st))) eqn:Hl.
  - destruct (launch_launchable st Hl) as (command & args & Hla & Htry).
    unfold exec. rewrite Hla. cbn [snd]. rewrite Htry.
    split; [|split; [|split]].
    + intros e H. unfold bind, spawnProcessAsync in H.
      simpl. rewrite afterSpawn_deferred.
      destruct (spawnRejects command args) as [e0|] eqn:Hs; simpl in H;
        [|discriminate].
      injection H as <-. split; [right; now exists command, args|].
      split; [reflexivity|]. intros Hd. now rewrite Hd.
    + discriminate.
    + intros _. exists command, args. split; [apply afterSpawn_effects|].
      intros e He. unfold bind, spawnProcessAsync. rewrite He. reflexivity.
    + rewrite (countEffects_app isSpawn st (afterSpawn command args st)
                 [Spawn command args] (afterSpawn_effects _ _ _)).
      simpl. lia.
  - destruct (launchTry_unlaunchable st Hl) as (e' & Hc & Htry).
    unfold exec. rewrite launch_unfold, Htry. cbn [snd fst].
    split; [|split; [|split]].
    + intros e [= <-]. split; [now left|].
      split; [reflexivity|]. intros Hd. simpl. now rewrite Hd.
    + intros _. now exists e'.
    + discriminate.
    + unfold countEffects, rejectedWith. simpl. lia.
Qed.

(** ** The readiness future *)

Lemma processLogInfo_other (line : string) (st : State) :
  startsWith line START_UP_COMPLETE_MSG = false ->
  processLogInfo line st = (Normal tt, st).
Proof. unfold processLogInfo. intros ->. reflexivity. Qed.

Lemma processLogInfo_sentinel (line : string) (st : State) :
  startsWith line START_UP_COMPLETE_MSG = true ->
  onReadyDeferred (this (exec (processLogInfo line) st))
  = Deferred.resolve (onReadyDeferred (this st)).
Proof. unfold processLogInfo. intros ->. reflexivity. Qed.

Lemma resolve_settled (d : Deferred.state) :
  d <> Deferred.unresolved -> Deferred.resolve d = d.
Proof. destruct d; [intros H; now elim H | reflexivity | reflexivity]. Qed.

Lemma reject_settled (e : Error) (d : Deferred.state) :
  d <> Deferred.unresolved -> Deferred.reject e d = d.
Proof. destruct d; [intros H; now elim H | reflexivity | reflexivity]. Qed.

(** Once the future is settled no process event changes it. *)
Lemma onProcessEvent_settled (ev : ProcessEvent) (st : State) :
  onReadyDeferred (this st) <> Deferred.unresolved ->
  onReadyDeferred (this (exec (onProcessEvent ev) st)) = onReadyDeferred (this st).
Proof.
  intros H. destruct ev as [line|reason]; simpl.
  - unfold processLogInfo.
    destruct (startsWith line START_UP_COMPLETE_MSG); [|reflexivity].
    simpl. now apply resolve_settled.
  - unfold exec. simpl. now apply reject_settled.
Qed.

Lemma trace_settled (evs : list ProcessEvent) (st : State) :
  onReadyDeferred (this st) <> Deferred.unresolved ->
  readinessTrace onProcessEvent evs st
  = repeat (onReadyDeferred (this st)) (length evs).
Proof.
  revert st; induction evs as [|ev evs IH]; intros st H; [reflexivity|].
  cbn [readinessTrace length repeat].
  pose proof (onProcessEvent_settled ev st H) as E.
  rewrite IH by (rewrite E; exact H). now rewrite E.
Qed.

Lemma trace_waiting (pre : list string) (rest : list ProcessEvent) (st : State) :
  (forall x, In x pre -> startsWith x START_UP_COMPLETE_MSG = false) ->
  onReadyDeferred (this st) = Deferred.unresolved ->
  readinessTrace onProcessEvent (map OutputLine pre ++ rest) st
  = repeat Deferred.unresolved (length pre)
      ++ readinessTrace onProcessEvent rest st.
Proof.
  intros Hpre Hd. induction pre as [|l pre IH]; [reflexivity|].
  cbn [map app readinessTrace length repeat onProcessEvent].
  unfold exec. rewrite (processLogInfo_other l st) by (apply Hpre; now left).
  cbn [snd]. rewrite Hd. f_equal. apply IH.
  intros x Hx. apply Hpre. now right.
Qed.

Lemma trace_lines (lines : list string) (st : State) :
  readinessTrace processLogInfo lines st
  = readinessTrace onProcessEvent (map OutputLine lines) st.
Proof.
  revert st; induction lines as [|l lines IH]; intros st; [reflexivity|].
  cbn [map readinessTrace onProcessEvent]. now rewrite IH.
Qed.

Lemma transitions_constant (d : Deferred.state) (n : nat) :
  transitions d (repeat d n) = 0.
Proof. induction n as [|n IH]; [reflexivity|]. simpl. rewrite IH. now destruct d. Qed.

Lemma transitions_once (d : Deferred.state) (n m : nat) :
  d <> Deferred.unresolved ->
  transitions Deferred.unresolved
    (repeat Deferred.unresolved n ++ repeat d (S m)) = 1.
Proof.
  intros H. induction n as [|n IH].
  - simpl. rewrite transitions_constant. destruct d; [now elim H | reflexivity | reflexivity].
  - simpl. exact IH.
Qed.

(** C1.  A line passes the test of [processLogInfo] exactly when it is the
    sentinel or starts with it.  Starting from the unsettled future, for
    every sequence of output lines: the future stays unresolved on the lines
    before the first such line, is resolved at that line, and stays resolved
    on all further lines, whatever they are, so that it changes state exactly
    once; without such a line it stays unresolved. *)
Theorem readiness_resolves_once (st : State) (lines : list string) :
  onReadyDeferred (this st) = Deferred.unresolved ->
  (forall l, startsWith l START_UP_COMPLETE_MSG = true
             <-> exists rest, l = (START_UP_COMPLETE_MSG ++ rest)%string)
  /\ (forall pre l post,
        lines = pre ++ l :: post ->
        (forall x, In x pre -> startsWith x START_UP_COMPLETE_MSG = false) ->
        startsWith l START_UP_COMPLETE_MSG = true ->
        readinessTrace processLogInfo lines st
        = repeat Deferred.unresolved (length pre)
            ++ repeat Deferred.resolved (S (length post))
        /\ transitions Deferred.unresolved
             (readinessTrace processLogInfo lines st) = 1)
  /\ ((forall x, In x lines -> startsWith x START_UP_COMPLETE_MSG = false) ->
      readinessTrace processLogInfo lines st
      = repeat Deferred.unresolved (length lines)).
Proof.
  intros Hd. split; [intros l; apply startsWith_iff|]. split.
  - intros pre l post -> Hpre Hl.
    assert (E : readinessTrace processLogInfo (pre ++ l :: post) st
                = repeat Deferred.unresolved (length pre)
                    ++ repeat Deferred.resolved (S (length post))).
    { rewrite trace_lines, map_app. cbn [map].
      rewrite (trace_waiting pre _ st Hpre Hd). f_equal.
      cbn [readinessTrace onProcessEvent repeat].
      pose proof (processLogInfo_sentinel l st Hl) as E. rewrite Hd in E.
      cbn [Deferred.resolve] in E.
      rewrite trace_settled by (rewrite E; discriminate).
      now rewrite E, length_map. }
    split; [exact E|]. rewrite E. now apply transitions_once.
  - intros Hno. rewrite trace_lines.
    rewrite <- (app_nil_r (map OutputLine lines)).
    rewrite (trace_waiting lines [] st Hno Hd). cbn [readinessTrace].
    apply app_nil_r.
Qed.


(** ** Connecting *)

Lemma connect_run (clientChannel : Channel) (st : State) :
  let o := options (this st) in
  let socket := nextSocket (world st) in
  let valid := isValidPort (port (socketConnectionOptions o)) in
  isNaN (port (socketConnectionOptions o)) = false ->
  connect clientChannel st
  = (if valid then Normal tt
     else Throw (socketBadPort (port (socketConnectionOptions o))),
     {| this :=
          {| options := o;
             onReadyDeferred := onReadyDeferred (this st);
             toDispose :=
               toDispose (this st)
                 ++ SocketConnectionForwarder clientChannel socket
                      :: (if valid then [DestroySocket socket] else []) |};
        world :=
          {| effects :=
               effects (world st)
                 ++ SocketCreate socket
                      :: (if valid
                          then [SocketConnect socket (socketConnectionOptions o)]
                          else []);
             nextPid := nextPid (world st);
             nextSocket := S socket;
             errorListeners :=
               errorListeners (world st)
                 ++ [(socket,
                      if instanceofForwardingChannel clientChannel
                      then FireOnErrorEmitter clientChannel
                      else LogAndDrop)] |} |}).
Proof.
  intros o socket valid Hn. subst o socket valid.
  unfold connect, connectToSocketServer, forward, newSocketConnectionForwarder.
  unfold bind at 1. unfold gets at 1. cbv beta iota. rewrite Hn.
  unfold socketConnect.
  destruct (isValidPort (port (socketConnectionOptions (options (this st)))));
    destruct (instanceofForwardingChannel clientChannel);
    unfold pushToDispose, socketOnError, newSocket;
    unfold bind, modifyWorld, modifyThis, ret, throw, perform; simpl;
    rewrite <- ?app_assoc; reflexivity.
Qed.

Lemma validPort_not_nan (n : number) : isValidPort n = true -> isNaN n = false.
Proof. now destruct n. Qed.

Lemma connect_state (clientChannel : Channel) (st : State) :
  isValidPort (port (socketConnectionOptions (options (this st)))) = true ->
  connect clientChannel st
  = (Normal tt,
     let socket := nextSocket (world st) in
     {| this :=
          {| options := options (this st);
             onReadyDeferred := onReadyDeferred (this st);
             toDispose :=
               toDispose (this st)
                 ++ [SocketConnectionForwarder clientChannel socket;
                     DestroySocket socket] |};
        world :=
          {| effects :=
               effects (world st)
                 ++ [SocketCreate socket;
                     SocketConnect socket (socketConnectionOptions (options (this st)))];
             nextPid := nextPid (world st);
             nextSocket := S socket;
             errorListeners :=
               errorListeners (world st)
                 ++ [(socket,
                      if instanceofForwardingChannel clientChannel
                      then FireOnErrorEmitter clientChannel
                      else LogAndDrop)] |} |}).
Proof.
  intros Hv. rewrite (connect_run _ _ (validPort_not_nan _ Hv)). cbv zeta.
  now rewrite Hv.
Qed.

Lemma connect_nan (clientChannel : Channel) (st : State) :
  isNaN (port (socketConnectionOptions (options (this st)))) = true ->
  connect clientChannel st
  = (Throw (connectPortError (port (socketConnectionOptions (options (this st))))), st).
Proof.
  intros Hn. unfold connect, connectToSocketServer, bind, gets, throw.
  now rewrite Hn.
Qed.

Lemma launch_options (st : State) :
  options (this (exec launch st)) = options (this st).
Proof.
  unfold exec. destruct (launchable (options (this st))) eqn:Hl.
  - destruct (launch_launchable st Hl) as (c & a & -> & _).
    apply afterSpawn_options.
  - destruct (launch_unlaunchable st Hl) as (e & _ & ->). reflexivity.
Qed.

(** C8.  With a port that is not-a-number, [connect] fails with the
    configuration error of the connect stage and leaves the contribution and
    the world exactly as they were: no socket is created and none is
    connected.  This holds in every state, hence whether or not [launch] has
    run and made its own check. *)
Theorem connect_rejects_nan_port (st : State) (clientChannel : Channel) :
  let o := options (this st) in
  isNaN (port (socketConnectionOptions o)) = true ->
  connect clientChannel st = (Throw (connectPortError (port (socketConnectionOptions o))), st)
  /\ ConfigurationError o (connectPortError (port (socketConnectionOptions o)))
  /\ countEffects isSocketEffect (exec (connect clientChannel) st)
     = countEffects isSocketEffect st
  /\ connect clientChannel (exec launch st)
     = (Throw (connectPortError (port (socketConnectionOptions o))), exec launch st).
Proof.
  intros o Hn. split; [now apply connect_nan|]. split; [apply CE_connectPort|].
  split.
  - unfold exec. now rewrite connect_nan.
  - rewrite connect_nan; rewrite launch_options; [reflexivity | exact Hn].
Qed.

Lemma listenersOf_fresh (socket : nat) (l : ErrorListener) (w : World) :
  listenersOf socket w = [] ->
  map snd (filter (fun sl => Nat.eqb (fst sl) socket)
             (errorListeners w ++ [(socket, l)])) = [l].
Proof.
  unfold listenersOf. intros H.
  rewrite filter_app, map_app, H. simpl. now rewrite Nat.eqb_refl.
Qed.

(** C9.  After [connect] on a socket that had no listener yet, an error
    event of that socket is not thrown.  When the client channel is a
    [ForwardingChannel] the error is fired on the error emitter of that
    channel, and nothing else happens; when it is not, the error is logged
    and dropped, and no channel error event is raised.  This holds whether
    [socket.connect] accepted the port or threw: the listener is registered
    before it is called. *)
Theorem socket_error_surfaced (st : State) (clientChannel : Channel)
    (error : Error) :
  let socket := nextSocket (world st) in
  let st' := exec (connect clientChannel) st in
  isNaN (port (socketConnectionOptions (options (this st)))) = false ->
  listenersOf socket (world st) = [] ->
  fst (connect clientChannel st)
  = (if isValidPort (port (socketConnectionOptions (options (this st))))
     then Normal tt
     else Throw (socketBadPort (port (socketConnectionOptions (options (this st))))))
  /\ emitSocketError socket error st'
     = (Normal tt,
        {| this := this st';
           world :=
             perform
               (if instanceofForwardingChannel clientChannel
                then ChannelErrorEvent clientChannel error
                else LogError error)
               (world st') |}).
Proof.
  intros socket st' Hn Hfresh. subst st'. unfold exec.
  rewrite (connect_run clientChannel st Hn). cbn [fst snd].
  split; [reflexivity|].
  unfold emitSocketError, bind, gets, listenersOf. cbn [world errorListeners].
  rewrite (listenersOf_fresh _ _ _ Hfresh).
  destruct (instanceofForwardingChannel clientChannel); reflexivity.
Qed.

(** ** Disposal *)

Lemma dispose_disposed (st : State) :
  toDispose (this st) = [] -> dispose st = (Normal tt, st).
Proof.
  destruct st as [[o d td] [eff np ns ls]]. cbn. intros ->. reflexivity.
Qed.

Lemma onSessionEvent_disposed (ev : SessionEvent) (st : State) :
  toDispose (this st) = [] -> onSessionEvent ev st = (Normal tt, st).
Proof.
  intros H. destruct ev as [|socket|clientChannel]; cbn [onSessionEvent].
  - now apply dispose_disposed.
  - unfold bind, gets. rewrite H. reflexivity.
  - unfold bind, gets. rewrite H. reflexivity.
Qed.

Lemma runEvents_disposed (evs : list SessionEvent) (st : State) :
  toDispose (this st) = [] ->
  runEvents onSessionEvent evs st = (Normal tt, st).
Proof.
  intros H. induction evs as [|ev evs IH]; [reflexivity|].
  cbn [runEvents]. unfold bind.
  rewrite (onSessionEvent_disposed ev st H). exact IH.
Qed.

Lemma onSessionEvent_normal (ev : SessionEvent) (st : State) :
  fst (onSessionEvent ev st) = Normal tt
  /\ toDispose (this (exec (onSessionEvent ev) st)) = toDispose (this st)
     \/ toDispose (this (exec (onSessionEvent ev) st)) = [].
Proof.
  unfold exec.
  destruct ev as [|socket|clientChannel]; cbn [onSessionEvent];
    unfold bind, gets.
  - right. reflexivity.
  - destruct (channelOfSocket socket (toDispose (this st)));
      [right; reflexivity | left; now split].
  - destruct (socketOfChannel clientChannel (toDispose (this st)));
      [right; reflexivity | left; now split].
Qed.

(** The session bound by a successful [launch] and a successful [connect]
    on a new contribution. *)
Lemma bound_session (p : PartialOptions) (clientChannel : Channel) :
  fst (launchTry (initialState p)) = Normal tt ->
  fst (connect clientChannel (exec launch (initialState p))) = Normal tt ->
  exists command args,
    exec (connect clientChannel) (exec launch (initialState p))
    = {| this :=
           {| options := configure p;
              onReadyDeferred := Deferred.unresolved;
              toDispose :=
                [KillProcess 0; SocketConnectionForwarder clientChannel 0;
                 DestroySocket 0] |};
         world :=
           {| effects :=
                [Spawn command args; SocketCreate 0;
                 SocketConnect 0 (socketConnectionOptions (configure p))];
              nextPid := 1;
              nextSocket := 1;
              errorListeners :=
                [(0, if instanceofForwardingChannel clientChannel
                     then FireOnErrorEmitter clientChannel
                     else LogAndDrop)] |} |}.
Proof.
  intros Htry Hconnect.
  assert (Hl : launchable (options (this (initialState p))) = true).
  { destruct (launchable (options (this (initialState p)))) eqn:Hl; [reflexivity|].
    destruct (launchTry_unlaunchable _ Hl) as (e & _ & E).
    rewrite E in Htry. discriminate. }
  destruct (launch_launchable _ Hl) as (command & args & Hla & Htry').
  assert (Hs : spawnRejects command args = None).
  { rewrite Htry' in Htry. unfold bind, spawnProcessAsync in Htry.
    destruct (spawnRejects command args); [discriminate | reflexivity]. }
  assert (Hlaunched :
            exec launch (initialState p)
            = {| this :=
                   {| options := configure p;
                      onReadyDeferred := Deferred.unresolved;
                      toDispose := [KillProcess 0] |};
                 world :=
                   {| effects := [Spawn command args];
                      nextPid := 1;
                      nextSocket := 0;
                      errorListeners := [] |} |}).
  { unfold exec. rewrite Hla. cbn [snd].
    unfold afterSpawn, spawnProcessAsync. rewrite Hs. reflexivity. }
  rewrite Hlaunched in *.
  destruct (launchable_inv _ Hl) as (_ & _ & Hn & _).
  cbn [initialState this initialize options] in Hn.
  assert (Hv : isValidPort (port (socketConnectionOptions (configure p))) = true).
  { rewrite connect_run in Hconnect by exact Hn.
    cbv zeta in Hconnect. cbn [fst this options] in Hconnect.
    destruct (isValidPort (port (socketConnectionOptions (configure p))));
      [reflexivity | discriminate Hconnect]. }
  exists command, args. unfold exec. rewrite connect_state by exact Hv.
  reflexivity.
Qed.


(** ** The default options *)

(** C10, as amended.  When [createContributionOptions] supplies no
    [socketConnectionOptions], the configured port is not-a-number.  Then
    [launch] on the new contribution always rejects its readiness future
    with a configuration error and spawns nothing: with the
    port-is-not-a-number error when an executable is supplied and exists,
    with the missing-executable error when none is supplied, and with the
    invalid-path error when the supplied one does not exist.  [connect]
    always fails with the port-is-not-a-number error of the connect stage. *)
Theorem default_port_unusable (createContributionOptions : PartialOptions)
    (clientChannel : Channel) :
  let st := initialState createContributionOptions in
  let o := options (this st) in
  socketConnectionOptions_opt createContributionOptions = None ->
  port (socketConnectionOptions o) = NaN
  /\ (exists e,
        ConfigurationError o e
        /\ promiseState onReadyDeferred_promise (exec launch st) = Deferred.rejected e)
  /\ world (exec launch st) = world st
  /\ (truthy_opt_string (executable o) = true ->
      existsSync (nonNull (executable o)) = true ->
      promiseState onReadyDeferred_promise (exec launch st)
      = Deferred.rejected (launchPortError NaN))
  /\ (truthy_opt_string (executable o) = false ->
      promiseState onReadyDeferred_promise (exec launch st)
      = Deferred.rejected noExecutableError)
  /\ (truthy_opt_string (executable o) = true ->
      existsSync (nonNull (executable o)) = false ->
      promiseState onReadyDeferred_promise (exec launch st)
      = Deferred.rejected (invalidPathError (nonNull (executable o))))
  /\ connect clientChannel st = (Throw (connectPortError NaN), st).
Proof.
  intros st o Hnone.
  assert (Hp : port (socketConnectionOptions o) = NaN).
  { subst o st. simpl. unfold configure. rewrite Hnone. reflexivity. }
  assert (Hl : launchable o = false).
  { unfold launchable. rewrite Hp. simpl. now rewrite andb_false_r. }
  split; [exact Hp|].
  destruct (launch_unlaunchable st Hl) as (e & Hc & Hla).
  split; [exists e; split; [exact Hc | unfold exec; rewrite Hla; reflexivity]|].
  split; [unfold exec; rewrite Hla; reflexivity|].
  assert (Hrun : exec launch st
                 = match launchTry st with
                   | (Normal _, st') => st'
                   | (Throw e, st') => rejectedWith e st'
                   end)
    by (unfold exec; now rewrite launch_unfold).
  rewrite Hrun. unfold launchTry, bind, gets, throw. fold o. rewrite Hp.
  repeat split.
  - intros -> ->. reflexivity.
  - intros ->. reflexivity.
  - intros -> ->. reflexivity.
  - rewrite <- Hp. apply connect_nan. fold o. now rewrite Hp.
Qed.

(** * Further properties of the code *)

(** ** The key of [getPort] and its spellings *)

Lemma replace_unfold (s pat repl : string) :
  replace s pat repl
  = if String.prefix pat s
    then (repl ++ substring_from s (String.length pat))%string
    else match s with
         | EmptyString => EmptyString
         | String c s' => String c (replace s' pat repl)
         end.
Proof. destruct s; reflexivity. Qed.

Lemma substring_from_app (p s : string) :
  substring_from (p ++ s) (String.length p) = s.
Proof.
  induction p as [|c p IH].
  - apply substring_from_0.
  - unfold substring_from in *. simpl. exact IH.
Qed.

Lemma replace_at_start (pat s : string) : replace (pat ++ s) pat "" = s.
Proof.
  rewrite replace_unfold, prefix_app. apply substring_from_app.
Qed.

Lemma prefix_cons (c d : ascii) (p s : string) :
  String.prefix (String c p) (String d s)
  = if ascii_dec c d then String.prefix p s else false.
Proof. reflexivity. Qed.

Lemma prefix_nil (s : string) : String.prefix "" s = true.
Proof. now destruct s. Qed.

Lemma replace_at_end (k : string) :
  includes k "=" = false -> replace (k ++ "=") "=" "" = k.
Proof.
  induction k as [|c k IH]; intros H; [reflexivity|].
  pose proof (includes_prefix _ _ H) as Hp.
  cbn [includes] in H. apply orb_false_iff in H. destruct H as [_ H].
  change ((String c k ++ "=")%string) with (String c (k ++ "=")).
  rewrite replace_unfold.
  rewrite prefix_cons in *.
  destruct (ascii_dec "=" c); [now rewrite prefix_nil in Hp|].
  now rewrite IH.
Qed.

Lemma includes_dashes_app (k : string) :
  includes k "--" = false -> includes (k ++ "=") "--" = false.
Proof.
  induction k as [|c k IH]; intros H; [reflexivity|].
  pose proof (includes_prefix _ _ H) as Hp.
  cbn [includes] in H. apply orb_false_iff in H. destruct H as [_ H].
  change ((String c k ++ "=")%string) with (String c (k ++ "=")).
  cbn [includes]. rewrite (IH H), orb_false_r.
  rewrite prefix_cons in *.
  destruct (ascii_dec "-" c); [|reflexivity].
  destruct k as [|d k]; [reflexivity|].
  change ((String d k ++ "=")%string) with (String d (k ++ "=")).
  rewrite prefix_cons in *.
  destruct (ascii_dec "-" d); [|reflexivity].
  now rewrite prefix_nil in Hp.
Qed.

Lemma normalizedKey_spellings (k : string) :
  includes k "--" = false -> includes k "=" = false ->
  normalizedKey ("--" ++ k) = normalizedKey k
  /\ normalizedKey (k ++ "=") = normalizedKey k
  /\ normalizedKey ("--" ++ k ++ "=") = normalizedKey k.
Proof.
  intros Hd He. unfold normalizedKey.
  rewrite (replace_absent k _ _ Hd), (replace_absent k _ _ He).
  repeat split.
  - now rewrite replace_at_start, (replace_absent k _ _ He).
  - rewrite (replace_absent _ _ _ (includes_dashes_app k Hd)).
    now rewrite replace_at_end.
  - now rewrite replace_at_start, replace_at_end.
Qed.

(** X1.  [getPort] accepts its key with or without the leading dashes and
    the trailing equals sign: for a key that contains neither, the four
    spellings [k], [--k], [k=] and [--k=] give the same result on every
    argument list and for every default. *)
Theorem getPort_key_spellings (argv : list string) (k : string)
    (defaultPort : option number) :
  includes k "--" = false -> includes k "=" = false ->
  getPort argv ("--" ++ k) defaultPort = getPort argv k defaultPort
  /\ getPort argv (k ++ "=") defaultPort = getPort argv k defaultPort
  /\ getPort argv ("--" ++ k ++ "=") defaultPort = getPort argv k defaultPort.
Proof.
  intros Hd He.
  destruct (normalizedKey_spellings k Hd He) as (E1 & E2 & E3).
  unfold getPort. rewrite E1, E2, E3. repeat split.
Qed.

(** ** The value of a matching token *)

Lemma digits_stop (r : string) (acc : option Z) :
  r = ""%string \/ (exists c r', r = String c r' /\ digit c = None) ->
  digits r acc = acc.
Proof.
  intros [->|(c & r' & -> & Hc)]; [reflexivity|].
  cbn [digits]. now rewrite Hc.
Qed.

Lemma digits_string_of_uint (d : Decimal.uint) (r : string) (acc : option Z) :
  digits (NilEmpty.string_of_uint d ++ r) acc = digits r (uintValue d acc).
Proof.
  revert acc; induction d as [|d IH|d IH|d IH|d IH|d IH|d IH|d IH|d IH|d IH|d IH];
    intros acc; [reflexivity|..];
    cbn [NilEmpty.string_of_uint String.append digits uintValue];
    match goal with
    | |- context [digit ?c] =>
        let v := eval vm_compute in (digit c) in change (digit c) with v
    end;
    cbv iota; apply IH.
Qed.

Lemma uintValue_pos (d : Decimal.uint) (a : positive) :
  uintValue d (Some (Z.pos a)) = Some (Z.pos (Pos.of_uint_acc d a)).
Proof.
  revert a; induction d as [|d IH|d IH|d IH|d IH|d IH|d IH|d IH|d IH|d IH|d IH];
    intros a; [reflexivity|..];
    cbn [uintValue Pos.of_uint_acc]; unfold pushDigit;
    rewrite <- IH; do 2 f_equal; lia.
Qed.

Lemma uintValue_zero (d : Decimal.uint) :
  uintValue d (Some 0%Z) = Some (Z.of_N (Pos.of_uint d)).
Proof.
  induction d as [|d IH|d IH|d IH|d IH|d IH|d IH|d IH|d IH|d IH|d IH];
    [reflexivity | exact IH | ..];
    cbn [uintValue Pos.of_uint]; unfold pushDigit;
    cbn [Z.mul Z.add Z.of_N]; apply uintValue_pos.
Qed.

Lemma uintValue_start (d : Decimal.uint) :
  d <> Decimal.Nil -> uintValue d None = Some (Z.of_N (Pos.of_uint d)).
Proof.
  destruct d; intros H; [now elim H | ..];
    cbn [uintValue Pos.of_uint]; unfold pushDigit;
    cbn [Z.mul Z.add Z.of_N];
    first [apply uintValue_zero | apply uintValue_pos].
Qed.

Lemma to_uint_not_nil (p : positive) : Pos.to_uint p <> Decimal.Nil.
Proof.
  intros E. pose proof (DecimalPos.Unsigned.of_to p) as H.
  rewrite E in H. discriminate.
Qed.

Lemma string_of_uint_head (d : Decimal.uint) :
  d <> Decimal.Nil ->
  exists c s k, NilEmpty.string_of_uint d = String c s /\ digit c = Some k.
Proof.
  destruct d; intros H; [now elim H|..]; do 3 eexists; split;
    try reflexivity; vm_compute; reflexivity.
Qed.

(** A numeral that starts with a digit is read without sign and without
    skipping. *)
Lemma parseInt10_digit_first (c : ascii) (s : string) (k : Z) :
  digit c = Some k ->
  parseInt10 (String c s)
  = match digits (String c s) None with
    | Some v => Num (1 * v)
    | None => NaN
    end.
Proof.
  destruct c as [[] [] [] [] [] [] [] []]; intros H;
    vm_compute in H; try discriminate H; reflexivity.
Qed.

Lemma parseInt10_not_numeric (v : string) :
  v = ""%string
  \/ (exists c r, v = String c r /\ isWhiteSpace c = false /\ digit c = None
                  /\ c <> "-"%char /\ c <> "+"%char) ->
  parseInt10 v = NaN.
Proof.
  intros [->|(c & r & -> & Hw & Hd & Hm & Hp)]; [reflexivity|].
  unfold parseInt10. cbn [trimStart]. rewrite Hw.
  destruct c as [[] [] [] [] [] [] [] []];
    try (now elim Hm); try (now elim Hp);
    cbn [digits]; rewrite Hd; reflexivity.
Qed.

Lemma parseInt10_positive (p : positive) (r : string) :
  r = ""%string \/ (exists c r', r = String c r' /\ digit c = None) ->
  parseInt10 (NilEmpty.string_of_uint (Pos.to_uint p) ++ r) = Num (Z.pos p)
  /\ digits (NilEmpty.string_of_uint (Pos.to_uint p) ++ r) None = Some (Z.pos p).
Proof.
  intros Hr.
  assert (Hd : digits (NilEmpty.string_of_uint (Pos.to_uint p) ++ r) None
               = Some (Z.pos p)).
  { rewrite digits_string_of_uint, (digits_stop r _ Hr).
    rewrite (uintValue_start _ (to_uint_not_nil p)).
    now rewrite DecimalPos.Unsigned.of_to. }
  split; [|exact Hd].
  destruct (string_of_uint_head _ (to_uint_not_nil p)) as (c & s & k & E & Hk).
  rewrite E in *. cbn [String.append] in *.
  rewrite (parseInt10_digit_first c _ k Hk), Hd. reflexivity.
Qed.

(** Reading back a rendered integer, whatever follows it. *)
Lemma parseInt10_number_toString (z : Z) (r : string) :
  r = ""%string \/ (exists c r', r = String c r' /\ digit c = None) ->
  parseInt10 (number_toString (Num z) ++ r) = Num z.
Proof.
  intros Hr. destruct z as [|p|p]; cbn [number_toString Z.to_int].
  - change (NilZero.string_of_int (Decimal.Pos Decimal.zero)) with "0"%string.
    cbn [String.append].
    rewrite (parseInt10_digit_first "0" r 0 eq_refl).
    cbn [digits]. change (digit "0") with (Some 0%Z). cbv iota.
    now rewrite (digits_stop r _ Hr).
  - unfold NilZero.string_of_int, NilZero.string_of_uint.
    pose proof (to_uint_not_nil p) as Hn.
    destruct (parseInt10_positive p r Hr) as [E _].
    destruct (Pos.to_uint p); [now elim Hn|exact E..].
  - unfold NilZero.string_of_int, NilZero.string_of_uint.
    pose proof (to_uint_not_nil p) as Hn.
    destruct (parseInt10_positive p r Hr) as [_ E].
    assert (E' : parseInt10
                   (String "-" (NilEmpty.string_of_uint (Pos.to_uint p) ++ r))
                 = Num (Z.neg p)).
    { unfold parseInt10. cbn [trimStart].
      change (isWhiteSpace "-") with false. cbv iota. now rewrite E. }
    destruct (Pos.to_uint p); [now elim Hn|exact E'..].
Qed.

(** X2.  The default is used only when no argument matches.  When the first
    matching argument carries an empty value, or a value whose first
    character is neither white space, a sign nor a digit, [getPort] returns
    not-a-number, whatever default is supplied and whatever arguments
    follow. *)
Theorem getPort_malformed_value (argv pre post : list string) (k v : string)
    (defaultPort : option number) :
  argv = pre ++ (normalizedKey k ++ v)%string :: post ->
  (forall a, In a pre -> startsWith a (normalizedKey k) = false) ->
  v = ""%string
  \/ (exists c r, v = String c r /\ isWhiteSpace c = false /\ digit c = None
                  /\ c <> "-"%char /\ c <> "+"%char) ->
  getPort argv k defaultPort = NaN.
Proof.
  intros Hargv Hpre Hv.
  rewrite (getPort_first_match argv pre post _ k defaultPort Hargv Hpre)
    by apply prefix_app.
  rewrite substring_from_app. now apply parseInt10_not_numeric.
Qed.

(** X3.  [getPort] reads back every safe integer in the rendering that the
    launchers use for the port: when the first matching argument is the key
    followed by the decimal rendering of a safe integer [z] and then by
    nothing or by something that does not start with a digit, the result is
    [z].  No port range is checked: negative numbers and numbers above 65535
    come back as they are. *)
Theorem getPort_reads_back (argv pre post : list string) (k junk : string)
    (z : Z) (defaultPort : option number) :
  isSafeInteger (Num z) = true ->
  argv = pre ++ (normalizedKey k ++ number_toString (Num z) ++ junk)%string :: post ->
  (forall a, In a pre -> startsWith a (normalizedKey k) = false) ->
  junk = ""%string \/ (exists c r, junk = String c r /\ digit c = None) ->
  getPort argv k defaultPort = Num z.
Proof.
  intros _ Hargv Hpre Hjunk.
  rewrite (getPort_first_match argv pre post _ k defaultPort Hargv Hpre)
    by apply prefix_app.
  rewrite substring_from_app. now apply parseInt10_number_toString.
Qed.

(** X4.  The default never yields the port [0]: when [getPort] returns
    [0], some argument starts with the normalised key, so the [0] was read
    from the command line; a default of [0] cannot produce it. *)
Theorem getPort_zero_from_argument (argv : list string) (k : string)
    (defaultPort : option number) :
  getPort argv k defaultPort = Num 0 ->
  exists token, In token argv /\ startsWith token (normalizedKey k) = true.
Proof.
  unfold getPort. intros H.
  destruct (filter (fun a => startsWith a (normalizedKey k)) argv) as [|t ts] eqn:E.
  - cbn in H. destruct defaultPort as [[|z]|]; try discriminate H.
    cbn in H. destruct (Z.eqb_spec z 0) as [->|Hz]; cbn in H; [discriminate H|].
    injection H as ->. now elim Hz.
  - exists t.
    apply (proj1 (filter_In (fun a => startsWith a (normalizedKey k)) t argv)).
    rewrite E. now left.
Qed.

(** ** Lines that do not announce the startup *)

Lemma prefix_length (p s : string) :
  String.prefix p s = true -> String.length p <= String.length s.
Proof.
  revert s; induction p as [|c p IH]; intros s H; [simpl; lia|].
  destruct s as [|d s]; [discriminate H|].
  rewrite prefix_cons in H. destruct (ascii_dec c d); [|discriminate H].
  simpl. apply IH in H. lia.
Qed.

(** X5.  The sentinel has to stand at the very beginning of the line.  An
    empty line, a line shorter than the sentinel (such as a sentinel cut
    short) and a line whose first character is not the opening bracket, for
    instance because of leading white space or a time stamp, leave the
    contribution and the world unchanged, even when the sentinel occurs
    later in the line. *)
Theorem sentinel_must_lead (line : string) (st : State) :
  String.length line < String.length START_UP_COMPLETE_MSG
  \/ (exists c rest, line = String c rest /\ c <> "["%char) ->
  processLogInfo line st = (Normal tt, st).
Proof.
  intros H. apply processLogInfo_other. unfold startsWith.
  destruct (String.prefix START_UP_COMPLETE_MSG line) eqn:E; [|reflexivity].
  destruct H as [H|(c & rest & -> & Hc)].
  - apply prefix_length in E. lia.
  - unfold START_UP_COMPLETE_MSG in E. rewrite prefix_cons in E.
    destruct (ascii_dec "[" c) as [<-|]; [now elim Hc | discriminate E].
Qed.

(** ** Launching again, and launching before the output *)

Lemma launch_spawnOf (st : State) :
  launchable (options (this st)) = true ->
  launch st
  = (Normal onReadyDeferred_promise,
     afterSpawn (fst (spawnOf (options (this st))))
       (snd (spawnOf (options (this st)))) st).
Proof.
  intros Hl. destruct (launchable_inv _ Hl) as (_ & _ & _ & [Hjar|[Hjar Hjs]]);
    unfold spawnOf; rewrite Hjar; cbn [fst snd].
  - apply (launch_java st Hl Hjar).
  - apply (launch_node st Hl Hjs).
Qed.

Lemma launchTry_spawnOf (st : State) :
  launchable (options (this st)) = true ->
  launchTry st
  = (spawnProcessAsync (fst (spawnOf (options (this st))))
       (snd (spawnOf (options (this st)))) ;;; ret tt) st.
Proof.
  intros Hl. destruct (launchable_inv _ Hl) as (_ & _ & _ & [Hjar|[Hjar Hjs]]);
    unfold spawnOf; rewrite Hjar; cbn [fst snd].
  - apply (launchTry_java st Hl Hjar).
  - apply (launchTry_node st Hl Hjs).
Qed.

Lemma launch_effects (st : State) :
  effects (world (exec launch st))
  = effects (world st)
      ++ (if launchable (options (this st))
          then [Spawn (fst (spawnOf (options (this st))))
                  (snd (spawnOf (options (this st))))]
          else []).
Proof.
  unfold exec. destruct (launchable (options (this st))) eqn:Hl.
  - rewrite (launch_spawnOf st Hl). apply afterSpawn_effects.
  - destruct (launch_unlaunchable st Hl) as (e & _ & ->). cbn.
    now rewrite app_nil_r.
Qed.

Lemma exec_bind_launch (k : M unit) (st : State) :
  exec (launch ;;; k) st = exec k (exec launch st).
Proof. unfold exec, bind. rewrite launch_unfold. reflexivity. Qed.

(** X6.  [launch] keeps no record of having run.  Called [n] times in a row
    on options that pass its guards, it hands the same command and argument
    vector to [spawnProcessAsync] [n] times; on options that do not, it
    spawns nothing however often it is called. *)
Theorem launch_spawns_again (n : nat) (st : State) :
  let o := options (this st) in
  effects (world (exec (launchTimes n) st))
  = effects (world st)
      ++ (if launchable o
          then repeat (Spawn (fst (spawnOf o)) (snd (spawnOf o))) n
          else []).
Proof.
  revert st; induction n as [|n IH]; intros st o; subst o.
  - cbn. destruct (launchable _); now rewrite app_nil_r.
  - cbn [launchTimes]. rewrite exec_bind_launch, IH.
    rewrite launch_options, launch_effects.
    destruct (launchable (options (this st))); cbn [repeat].
    + now rewrite <- app_assoc.
    + now rewrite !app_nil_r.
Qed.

Lemma launch_deferred_settled (st : State) :
  onReadyDeferred (this st) <> Deferred.unresolved ->
  onReadyDeferred (this (exec launch st)) = onReadyDeferred (this st).
Proof.
  intros H. unfold exec. destruct (launchable (options (this st))) eqn:Hl.
  - rewrite (launch_spawnOf st Hl). cbn [snd]. rewrite afterSpawn_deferred.
    destruct (spawnRejects _ _); [now apply reject_settled | reflexivity].
  - destruct (launch_unlaunchable st Hl) as (e & _ & ->). cbn.
    now apply reject_settled.
Qed.

Lemma connect_this (clientChannel : Channel) (st : State) :
  onReadyDeferred (this (exec (connect clientChannel) st)) = onReadyDeferred (this st)
  /\ options (this (exec (connect clientChannel) st)) = options (this st).
Proof.
  unfold exec.
  destruct (isNaN (port (socketConnectionOptions (options (this st))))) eqn:Hn.
  - rewrite (connect_nan _ _ Hn). now split.
  - rewrite (connect_run _ _ Hn). now split.
Qed.

(** X7.  Once the readiness future is settled, nothing the contribution
    does changes it: a later [launch], whether it fails or spawns, a later
    [connect] and every later output line leave it as it is.  In particular
    an error of a [launch] that comes after the future was resolved is not
    seen through the promise. *)
Theorem settled_future_is_final (st : State) (clientChannel : Channel)
    (line : string) :
  onReadyDeferred (this st) <> Deferred.unresolved ->
  promiseState onReadyDeferred_promise (exec launch st) = onReadyDeferred (this st)
  /\ promiseState onReadyDeferred_promise (exec (connect clientChannel) st)
     = onReadyDeferred (this st)
  /\ promiseState onReadyDeferred_promise (exec (processLogInfo line) st)
     = onReadyDeferred (this st).
Proof.
  intros H. cbn [promiseState]. split; [now apply launch_deferred_settled|].
  split; [apply connect_this|].
  exact (onProcessEvent_settled (OutputLine line) st H).
Qed.

(** X8.  [connect] never touches the readiness future, the options or the
    spawned processes: whether it succeeds or throws, the future and the
    options are as before and no process is spawned or killed.  An error of
    [connect] therefore reaches its caller only, not the promise of
    [launch]. *)
Theorem connect_leaves_readiness_alone (st : State) (clientChannel : Channel) :
  promiseState onReadyDeferred_promise (exec (connect clientChannel) st)
  = onReadyDeferred (this st)
  /\ options (this (exec (connect clientChannel) st)) = options (this st)
  /\ countEffects isSpawn (exec (connect clientChannel) st) = countEffects isSpawn st
  /\ countEffects isProcessKill (exec (connect clientChannel) st)
     = countEffects isProcessKill st.
Proof.
  cbn [promiseState]. split; [apply connect_this|]. split; [apply connect_this|].
  unfold exec.
  destruct (isNaN (port (socketConnectionOptions (options (this st))))) eqn:Hn.
  - rewrite (connect_nan _ _ Hn). now split.
  - rewrite (connect_run _ _ Hn). cbn [snd]. unfold countEffects. cbn.
    rewrite !filter_app.
    destruct (isValidPort (port (socketConnectionOptions (options (this st)))));
      cbn; now rewrite !app_nil_r.
Qed.

Lemma runEvents_lines (lines : list string) (st : State) :
  onReadyDeferred (this (exec (runEvents processLogInfo lines) st))
  = if announcesStartup lines
    then Deferred.resolve (onReadyDeferred (this st))
    else onReadyDeferred (this st).
Proof.
  revert st; induction lines as [|l lines IH]; intros st; [reflexivity|].
  cbn [runEvents announcesStartup existsb].
  destruct (startsWith l START_UP_COMPLETE_MSG) eqn:Hl.
  - assert (E : exec (processLogInfo l ;;; runEvents processLogInfo lines) st
                = exec (runEvents processLogInfo lines)
                    (exec (processLogInfo l) st)).
    { unfold exec, bind, processLogInfo. rewrite Hl. reflexivity. }
    rewrite E, IH, (processLogInfo_sentinel l st Hl). cbn [orb].
    fold (announcesStartup lines).
    destruct (announcesStartup lines); [|reflexivity].
    now destruct (onReadyDeferred (this st)).
  - unfold exec, bind. rewrite (processLogInfo_other l st Hl).
    cbn [orb]. apply IH.
Qed.

(** X9.  A successful spawn does not announce readiness by itself.  After a
    [launch] whose [try] block completed, a future that was unsettled is
    still unsettled, and after the output lines that follow it is resolved
    exactly when one of them starts with the sentinel.  After a [launch]
    whose [try] block threw, no output line resolves it any more: it stays
    rejected with that error. *)
Theorem launch_then_output (st : State) (lines : list string) :
  onReadyDeferred (this st) = Deferred.unresolved ->
  (fst (launchTry st) = Normal tt ->
   promiseState onReadyDeferred_promise (exec launch st) = Deferred.unresolved
   /\ promiseState onReadyDeferred_promise
        (exec (runEvents processLogInfo lines) (exec launch st))
      = if announcesStartup lines then Deferred.resolved else Deferred.unresolved)
  /\ (forall e, fst (launchTry st) = Throw e ->
      promiseState onReadyDeferred_promise
        (exec (runEvents processLogInfo lines) (exec launch st))
      = Deferred.rejected e).
Proof.
  intros Hd. cbn [promiseState]. split.
  - intros Htry.
    assert (E : onReadyDeferred (this (exec launch st)) = Deferred.unresolved).
    { unfold exec. rewrite launch_unfold. cbn [snd].
      destruct (launchable (options (this st))) eqn:Hl.
      - rewrite (launchTry_spawnOf st Hl) in *.
        unfold bind, spawnProcessAsync in *.
        destruct (spawnRejects _ _); [discriminate Htry | exact Hd].
      - destruct (launchTry_unlaunchable st Hl) as (e & _ & E).
        rewrite E in Htry. discriminate Htry. }
    split; [exact E|]. rewrite runEvents_lines, E.
    now destruct (announcesStartup lines).
  - intros e Htry.
    assert (E : onReadyDeferred (this (exec launch st)) = Deferred.rejected e).
    { unfold exec. rewrite launch_unfold. cbn [snd].
      destruct (launchable (options (this st))) eqn:Hl.
      - rewrite (launchTry_spawnOf st Hl) in *.
        unfold bind, spawnProcessAsync in *.
        destruct (spawnRejects _ _); cbn in *; [|discriminate Htry].
        injection Htry as ->. now rewrite Hd.
      - destruct (launchTry_unlaunchable st Hl) as (e' & _ & E).
        rewrite E in *. cbn in *. injection Htry as ->. now rewrite Hd. }
    rewrite runEvents_lines, E. now destruct (announcesStartup lines).
Qed.

(** ** Several connections *)

Lemma exec_bind_connect (clientChannel : Channel) (k : M unit) (st : State) :
  isValidPort (port (socketConnectionOptions (options (this st)))) = true ->
  exec (connect clientChannel ;;; k) st = exec k (exec (connect clientChannel) st).
Proof.
  intros Hv. unfold exec, bind. rewrite (connect_state _ _ Hv). reflexivity.
Qed.

Lemma connect_fields (clientChannel : Channel) (st : State) :
  let socket := nextSocket (world st) in
  let st' := exec (connect clientChannel) st in
  isValidPort (port (socketConnectionOptions (options (this st)))) = true ->
  effects (world st')
  = effects (world st)
      ++ [SocketCreate socket;
          SocketConnect socket (socketConnectionOptions (options (this st)))]
  /\ toDispose (this st')
     = toDispose (this st)
         ++ [SocketConnectionForwarder clientChannel socket; DestroySocket socket]
  /\ nextSocket (world st') = S socket.
Proof.
  intros socket st' Hv. subst socket st'. unfold exec.
  rewrite (connect_state _ _ Hv). now repeat split.
Qed.

(** The socket and the listener of a call of [connect] that passed the
    guard on the port, whether [socket.connect] then threw or not. *)
Lemma connect_listeners (clientChannel : Channel) (st : State) :
  let socket := nextSocket (world st) in
  let st' := exec (connect clientChannel) st in
  isNaN (port (socketConnectionOptions (options (this st)))) = false ->
  nextSocket (world st') = S socket
  /\ errorListeners (world st')
     = errorListeners (world st)
         ++ [(socket,
              if instanceofForwardingChannel clientChannel
              then FireOnErrorEmitter clientChannel
              else LogAndDrop)].
Proof.
  intros socket st' Hn. subst socket st'. unfold exec.
  rewrite (connect_run _ _ Hn). now split.
Qed.

(** X10.  Every call of [connect] gets a socket of its own.  With a port
    that [socket.connect] accepts, an integer from 0 to 65535, connecting
    the channels [chs] one after the other creates one new socket per
    channel, all different, connects each of them to the configured
    [socketConnectionOptions], and pushes for each its forwarder and then
    the destruction of its socket onto [toDispose], in the order of the
    calls. *)
Theorem connect_each_own_socket (chs : list Channel) (st : State) :
  let sockets := seq (nextSocket (world st)) (length chs) in
  let st' := exec (runEvents connect chs) st in
  isValidPort (port (socketConnectionOptions (options (this st)))) = true ->
  NoDup sockets
  /\ effects (world st')
     = effects (world st)
         ++ flat_map
              (fun s => [SocketCreate s;
                         SocketConnect s (socketConnectionOptions (options (this st)))])
              sockets
  /\ toDispose (this st')
     = toDispose (this st)
         ++ flat_map
              (fun sc => [SocketConnectionForwarder (snd sc) (fst sc);
                          DestroySocket (fst sc)])
              (combine sockets chs)
  /\ nextSocket (world st') = nextSocket (world st) + length chs.
Proof.
  intros sockets st' Hv. subst sockets st'.
  split; [apply seq_NoDup|].
  revert st Hv; induction chs as [|ch chs IH]; intros st Hv.
  - cbn. rewrite !app_nil_r. repeat split. lia.
  - cbn [runEvents]. rewrite (exec_bind_connect ch _ st Hv).
    destruct (connect_this ch st) as [_ Ho].
    destruct (IH (exec (connect ch) st)) as (He & Ht & Hs);
      [now rewrite Ho|].
    destruct (connect_fields ch st Hv) as (E1 & E2 & E3).
    rewrite He, Ht, Hs, Ho, E1, E2, E3.
    cbn [length seq combine flat_map fst snd].
    rewrite <- !app_assoc. cbn [app]. repeat split. lia.
Qed.

Lemma filter_listeners_other (socket other : nat) (l : ErrorListener)
    (ls : list (nat * ErrorListener)) :
  other <> socket ->
  filter (fun sl => Nat.eqb (fst sl) socket) (ls ++ [(other, l)])
  = filter (fun sl => Nat.eqb (fst sl) socket) ls.
Proof.
  intros H. rewrite filter_app. cbn.
  destruct (Nat.eqb_spec other socket); [now elim H | apply app_nil_r].
Qed.

(** X11.  The error listener that [connect] registers for a
    [ForwardingChannel] belongs to the socket of that call.  After two
    calls of [connect], for two [ForwardingChannel]s, on sockets without
    listeners, an error of the first socket is fired on the first channel
    only and an error of the second socket on the second channel only. *)
Theorem socket_errors_stay_apart (st : State) (ch1 ch2 : Channel) (error : Error) :
  let s1 := nextSocket (world st) in
  let s2 := S (nextSocket (world st)) in
  let st' := exec (connect ch2) (exec (connect ch1) st) in
  isNaN (port (socketConnectionOptions (options (this st)))) = false ->
  instanceofForwardingChannel ch1 = true ->
  instanceofForwardingChannel ch2 = true ->
  listenersOf s1 (world st) = [] ->
  listenersOf s2 (world st) = [] ->
  emitSocketError s1 error st'
  = (Normal tt,
     {| this := this st'; world := perform (ChannelErrorEvent ch1 error) (world st') |})
  /\ emitSocketError s2 error st'
     = (Normal tt,
        {| this := this st'; world := perform (ChannelErrorEvent ch2 error) (world st') |}).
Proof.
  intros s1 s2 st' Hn H1 H2 Hf1 Hf2.
  destruct (connect_this ch1 st) as [_ Ho].
  destruct (connect_listeners ch1 st Hn) as (Es & El1).
  destruct (connect_listeners ch2 (exec (connect ch1) st)) as (_ & El2);
    [now rewrite Ho|].
  rewrite Es, El1, H2 in El2. rewrite H1 in El2. fold st' in El2.
  unfold listenersOf in Hf1, Hf2.
  unfold emitSocketError, bind, gets, listenersOf. cbn [fst]. rewrite El2.
  subst s1 s2. split.
  - rewrite filter_listeners_other by lia.
    rewrite filter_app, map_app, Hf1. cbn. rewrite Nat.eqb_refl. reflexivity.
  - rewrite filter_app, map_app. cbn [filter fst]. rewrite Nat.eqb_refl.
    rewrite filter_listeners_other by lia.
    rewrite Hf2. reflexivity.
Qed.

(** ** What [createContributionOptions] has to supply *)

Lemma configure_executable (p : PartialOptions) :
  executable (configure p) = executable_opt p.
Proof. unfold configure. now destruct (executable_opt p). Qed.

(** X12.  A new contribution spawns a process on [launch] only if
    [createContributionOptions] supplies a non-empty executable path that
    exists on disk and ends in [.jar] or [.js], and supplies
    [socketConnectionOptions] whose port is a number. *)
Theorem launch_needs_options (p : PartialOptions) :
  countEffects isSpawn (exec launch (initialState p)) <> 0 ->
  exists exe sco,
    executable_opt p = Some exe
    /\ exe <> ""%string
    /\ existsSync exe = true
    /\ (endsWith exe ".jar" = true \/ endsWith exe ".js" = true)
    /\ socketConnectionOptions_opt p = Some sco
    /\ isNaN (port sco) = false.
Proof.
  intros H.
  assert (Hl : launchable (configure p) = true).
  { destruct (launchable (configure p)) eqn:Hl; [reflexivity|].
    elim H. unfold countEffects. rewrite launch_effects.
    cbn [initialState this initialize options]. rewrite Hl. reflexivity. }
  destruct (launchable_inv _ Hl) as (Ht & He & Hn & Hext).
  rewrite configure_executable in *.
  destruct (executable_opt p) as [exe|]; [|discriminate Ht].
  cbn [nonNull truthy_opt_string] in *.
  unfold configure in Hn. cbn [socketConnectionOptions] in Hn.
  destruct (socketConnectionOptions_opt p) as [sco|]; [|discriminate Hn].
  exists exe, sco. repeat split; try assumption.
  - intros ->. discriminate Ht.
  - destruct Hext as [Hj|[_ Hj]]; [now left | now right].
Qed.

(** X13.  [connect] on a new contribution succeeds exactly when
    [createContributionOptions] supplies [socketConnectionOptions] whose
    port is an integer from 0 to 65535, the ports that [socket.connect]
    accepts; neither an executable nor a previous [launch] is needed, and
    it then connects one new socket to exactly these options.  With any
    other port it fails: with the error of the guard when the port is
    not-a-number, and with the error of [socket.connect] otherwise. *)
Theorem connect_needs_port_only (p : PartialOptions) (clientChannel : Channel) :
  (fst (connect clientChannel (initialState p)) = Normal tt
   <-> exists sco,
         socketConnectionOptions_opt p = Some sco /\ isValidPort (port sco) = true)
  /\ (forall sco,
        socketConnectionOptions_opt p = Some sco -> isValidPort (port sco) = true ->
        effects (world (exec (connect clientChannel) (initialState p)))
        = [SocketCreate 0; SocketConnect 0 sco])
  /\ (forall sco,
        socketConnectionOptions_opt p = Some sco -> isValidPort (port sco) = false ->
        fst (connect clientChannel (initialState p))
        = Throw (if isNaN (port sco) then connectPortError (port sco)
                 else socketBadPort (port sco))).
Proof.
  assert (Hsome : forall sco, socketConnectionOptions_opt p = Some sco ->
            socketConnectionOptions (options (this (initialState p))) = sco).
  { intros sco Hp. cbn. unfold configure. now rewrite Hp. }
  assert (Hnone : socketConnectionOptions_opt p = None ->
            isNaN (port (socketConnectionOptions (options (this (initialState p)))))
            = true).
  { intros Hp. cbn. unfold configure. now rewrite Hp. }
  split; [|split].
  - split.
    + intros H.
      destruct (socketConnectionOptions_opt p) as [sco|] eqn:Hp.
      * exists sco. split; [reflexivity|].
        destruct (isNaN (port sco)) eqn:Hn.
        -- rewrite connect_nan in H by (now rewrite (Hsome sco eq_refl)).
           discriminate H.
        -- rewrite connect_run in H by (now rewrite (Hsome sco eq_refl)).
           cbv zeta in H. cbn [fst] in H. rewrite (Hsome sco eq_refl) in H.
           destruct (isValidPort (port sco)); [reflexivity | discriminate H].
      * rewrite connect_nan in H by (now apply Hnone). discriminate H.
    + intros (sco & Hp & Hv). rewrite connect_state; [reflexivity|].
      now rewrite (Hsome sco Hp).
  - intros sco Hp Hv. unfold exec. rewrite connect_state.
    + cbn [snd world effects]. now rewrite (Hsome sco Hp).
    + now rewrite (Hsome sco Hp).
  - intros sco Hp Hv. destruct (isNaN (port sco)) eqn:Hn.
    + rewrite connect_nan by (now rewrite (Hsome sco Hp)).
      cbn [fst]. now rewrite (Hsome sco Hp).
    + rewrite connect_run by (now rewrite (Hsome sco Hp)).
      cbv zeta. cbn [fst]. rewrite (Hsome sco Hp), Hv. reflexivity.
Qed.

(** ** The port on the command line *)

Lemma append_empty_r (s : string) : (s ++ "")%string = s.
Proof. induction s as [|c s IH]; [reflexivity | simpl; now rewrite IH]. Qed.

(** X14.  A port that is a safe integer reaches the spawned server intact.
    For options that pass the guards of [launch] and whose port is a safe
    integer, the spawned vector starts with the fixed front part (the JVM
    flags, ["-jar"] and the executable for a [.jar], the executable alone
    for a [.js]), which contains no ["--port"]; it goes on with ["--port"]
    and a token that is not ["NaN"] and that, read as a base-10 integer, is
    the configured port again.  The extra arguments come after this first
    ["--port"] only. *)
Theorem launch_passes_port (st : State) :
  let o := options (this st) in
  let front :=
    if endsWith (nonNull (executable o)) ".jar"
    then getJavaProcessJvmArgs ++ ["-jar"; nonNull (executable o)]
    else [nonNull (executable o)] in
  launchable o = true ->
  isSafeInteger (port (socketConnectionOptions o)) = true ->
  ~ In "--port"%string front
  /\ exists command back token,
       effects (world (exec launch st))
       = effects (world st) ++ [Spawn command (front ++ "--port" :: token :: back)]
       /\ token <> "NaN"%string
       /\ parseInt10 token = port (socketConnectionOptions o).
Proof.
  intros o front Hl Hsafe. subst front.
  destruct (launchable_inv _ Hl) as (_ & _ & Hn & Hext).
  assert (Hread : parseInt10 (number_toString (port (socketConnectionOptions o)))
                  = port (socketConnectionOptions o)).
  { destruct (port (socketConnectionOptions o)) as [|z]; [discriminate Hn|].
    rewrite <- (append_empty_r (number_toString (Num z))).
    apply parseInt10_number_toString. now left. }
  assert (Hnan : number_toString (port (socketConnectionOptions o)) <> "NaN"%string).
  { intros E. rewrite E in Hread.
    destruct (port (socketConnectionOptions o)); [discriminate Hn | discriminate Hread]. }
  split.
  - destruct Hext as [Hjar|[Hjar Hjs]]; rewrite Hjar.
    + intros [H|[H|[H|[H|[]]]]]; try discriminate H.
      rewrite H in Hjar. vm_compute in Hjar. discriminate Hjar.
    + intros [H|[]]. rewrite H in Hjs. vm_compute in Hjs. discriminate Hjs.
  - rewrite launch_effects. fold o. rewrite Hl. unfold spawnOf, portHostExtra.
    destruct (endsWith (nonNull (executable o)) ".jar"); cbn [fst snd].
    + exists "java"%string. do 2 eexists.
      split; [|split; [exact Hnan | exact Hread]].
      rewrite <- !app_assoc. reflexivity.
    + exists "node"%string. do 2 eexists.
      split; [|split; [exact Hnan | exact Hread]].
      reflexivity.
Qed.

End Contribution.

(** * Concrete runs *)

Arguments inherited {ServerContributionOptions} _.
Arguments executable {ServerContributionOptions} _.
Arguments socketConnectionOptions {ServerContributionOptions} _.
Arguments additionalArgs {ServerContributionOptions} _.
Arguments socketConnectionOptions_opt {ServerContributionOptions} _.
Arguments options {ServerContributionOptions} _.
Arguments onReadyDeferred {ServerContributionOptions} _.
Arguments toDispose {ServerContributionOptions} _.
Arguments this {ServerContributionOptions} _.
Arguments world {ServerContributionOptions} _.
Arguments initialState {ServerContributionOptions} _ _.
Arguments exec {ServerContributionOptions A} _ _.
Arguments launch {ServerContributionOptions} _ _ _.
Arguments launchTry {ServerContributionOptions} _ _ _.
Arguments connect {ServerContributionOptions} _ _.
Arguments dispose {ServerContributionOptions} _.
Arguments emitSocketError {ServerContributionOptions} _ _ _.
Arguments processLogInfo {ServerContributionOptions} _ _.
Arguments onProcessEvent {ServerContributionOptions} _ _.
Arguments onSessionEvent {ServerContributionOptions} _ _.
Arguments runEvents {ServerContributionOptions E} _ _ _.
Arguments readinessTrace {ServerContributionOptions E} _ _ _.
Arguments promiseState {ServerContributionOptions} _ _.
Arguments countEffects {ServerContributionOptions} _ _.
Arguments launchable {ServerContributionOptions} _ _.
Arguments javaArgs_spec {ServerContributionOptions} _.
Arguments ConfigurationError {ServerContributionOptions} _ _.

(** A file system with one jar and one script; a spawn that succeeds and
    one that fails. *)
Abbreviation onDisk :=
  (fun s : string => String.eqb s "/opt/glsp/server.jar" || String.eqb s "/opt/glsp/server.js").
Abbreviation spawnSucceeds := (fun (_ : string) (_ : list string) => @None Error).
Abbreviation spawnFails :=
  (fun (_ : string) (_ : list string) => Some (MkError "spawn java ENOENT")).

(** The error of [socket.connect] for a port that it does not accept. *)
Abbreviation badPort := (fun _ : number => MkError "ERR_SOCKET_BAD_PORT").

(** [createContributionOptions] of three contributions. *)
Abbreviation noOptions :=
  {| inherited_opt := @None unit;
     executable_opt := None;
     socketConnectionOptions_opt := None;
     additionalArgs_opt := None |}.
Abbreviation jarOptions h :=
  {| inherited_opt := @None unit;
     executable_opt := Some "/opt/glsp/server.jar";
     socketConnectionOptions_opt := Some {| port := Num 5007; host := h |};
     additionalArgs_opt := Some ["--consoleLog"; "true"] |}.
Abbreviation jarOnlyOptions :=
  {| inherited_opt := @None unit;
     executable_opt := Some "/opt/glsp/server.jar";
     socketConnectionOptions_opt := None;
     additionalArgs_opt := None |}.

Abbreviation aForwardingChannel :=
  {| channelId := 1; instanceofForwardingChannel := true |}.

Lemma getPort_resolves_witness :
  getPort ["node"; "--port=8081x"; "--port=1"] "--port=" (Some (Num 0)) = Num 8081
  /\ getPort ["node"] "port" (Some (Num 5007)) = Num 5007.
Proof.
  split.
  - apply (proj1 (proj2 (getPort_resolves
             ["node"; "--port=8081x"; "--port=1"] "--port=" (Some (Num 0))))
             ["node"] "--port=8081x" ["--port=1"]).
    + reflexivity.
    + intros a [<-|[]]. reflexivity.
    + reflexivity.
  - refine (proj2 (proj1 (proj2 (proj2 (getPort_resolves
             ["node"] "port" (Some (Num 5007))))) _) (Num 5007) eq_refl _).
    + intros a [<-|[]]. reflexivity.
    + discriminate.
Defined.

(** C3, as stated, fails: a key that already carries the dashes is
    normalised, so [--port=8081] is found for the key ["--port"], where the
    form [--<argsKey>=<value>] would be [----port=<value>]. *)
Lemma getPort_resolves_counterexample :
  getPort ["--port=8081"] "--port" None = Num 8081
  /\ resolvePort_spec "--port" ["--port=8081"] None = NaN
  /\ getPort ["--port=8081"] "--port" None
     <> resolvePort_spec "--port" ["--port=8081"] None.
Proof. repeat split. discriminate. Qed.

Lemma readiness_resolves_once_witness :
  readinessTrace processLogInfo
    ["Starting"; "[GLSP-Server]:Startup completed on port 5007"; "ready";
     "[GLSP-Server]:Startup completed"]
    (initialState tt noOptions)
  = [Deferred.unresolved; Deferred.resolved; Deferred.resolved; Deferred.resolved].
Proof.
  apply (proj1 (proj2 (readiness_resolves_once unit
           (initialState tt noOptions)
           ["Starting"; "[GLSP-Server]:Startup completed on port 5007"; "ready";
            "[GLSP-Server]:Startup completed"] eq_refl))
           ["Starting"] "[GLSP-Server]:Startup completed on port 5007"
           ["ready"; "[GLSP-Server]:Startup completed"]).
  - reflexivity.
  - intros x [<-|[]]. reflexivity.
  - reflexivity.
Defined.

Lemma launch_rejects_invalid_options_witness :
  exists e,
    ConfigurationError (options (this (initialState tt noOptions))) e
    /\ fst (launch onDisk spawnSucceeds (initialState tt noOptions))
       = Normal onReadyDeferred_promise
    /\ promiseState onReadyDeferred_promise
         (exec (launch onDisk spawnSucceeds) (initialState tt noOptions))
       = Deferred.rejected e
    /\ world (exec (launch onDisk spawnSucceeds) (initialState tt noOptions))
       = world (initialState tt noOptions)
    /\ countEffects isSpawn
         (exec (launch onDisk spawnSucceeds) (initialState tt noOptions))
       = countEffects isSpawn (initialState tt noOptions).
Proof.
  apply (launch_rejects_invalid_options unit onDisk spawnSucceeds
           (initialState tt noOptions)).
  - reflexivity.
  - left. reflexivity.
Defined.

Lemma launch_argument_vector_witness :
  effects
    (world
       (exec (launch onDisk spawnSucceeds)
          (initialState tt (jarOptions (Some "localhost")))))
  = [Spawn "java"
       ["--add-opens"; "java.base/java.util=ALL-UNNAMED"; "-jar";
        "/opt/glsp/server.jar"; "--port"; "5007"; "--host"; "localhost";
        "--consoleLog"; "true"]].
Proof.
  apply (proj1 (proj1 (launch_argument_vector unit onDisk spawnSucceeds
           (initialState tt (jarOptions (Some "localhost")))
           "/opt/glsp/server.jar" eq_refl eq_refl) eq_refl)).
Defined.

(** C4, as stated, fails: a host configured as the empty string is not
    passed on, so the vector has no ["--host"]. *)
Lemma launch_argument_vector_counterexample :
  let st := initialState tt (jarOptions (Some "")) in
  launchable onDisk (options (this st)) = true
  /\ host (socketConnectionOptions (options (this st))) = Some ""
  /\ effects (world (exec (launch onDisk spawnSucceeds) st))
     = [Spawn "java"
          ["--add-opens"; "java.base/java.util=ALL-UNNAMED"; "-jar";
           "/opt/glsp/server.jar"; "--port"; "5007"; "--consoleLog"; "true"]]
  /\ javaArgs_spec (options (this st))
     = ["--add-opens"; "java.base/java.util=ALL-UNNAMED"; "-jar";
        "/opt/glsp/server.jar"; "--port"; "5007"; "--host"; "";
        "--consoleLog"; "true"]
  /\ effects (world (exec (launch onDisk spawnSucceeds) st))
     <> [Spawn "java" (javaArgs_spec (options (this st)))].
Proof. repeat split. discriminate. Qed.

Lemma launch_funnels_errors_witness :
  promiseState onReadyDeferred_promise
    (exec (launch onDisk spawnFails) (initialState tt (jarOptions None)))
  = Deferred.rejected (MkError "spawn java ENOENT").
Proof.
  apply (proj2 (proj2 (proj1 (proj2 (launch_funnels_errors unit onDisk spawnFails
           (initialState tt (jarOptions None))))
           (MkError "spawn java ENOENT") eq_refl)) eq_refl).
Defined.



Lemma connect_rejects_nan_port_witness :
  connect badPort aForwardingChannel (initialState tt jarOnlyOptions)
  = (Throw (connectPortError NaN), initialState tt jarOnlyOptions).
Proof.
  apply (proj1 (connect_rejects_nan_port unit onDisk spawnSucceeds badPort
           (initialState tt jarOnlyOptions) aForwardingChannel eq_refl)).
Defined.

Lemma socket_error_surfaced_witness :
  let st' := exec (connect badPort aForwardingChannel) (initialState tt (jarOptions None)) in
  emitSocketError 0 (MkError "ECONNREFUSED") st'
  = (Normal tt,
     {| this := this st';
        world :=
          {| effects :=
               [SocketCreate 0;
                SocketConnect 0 {| port := Num 5007; host := None |};
                ChannelErrorEvent aForwardingChannel (MkError "ECONNREFUSED")];
             nextPid := 0;
             nextSocket := 1;
             errorListeners := [(0, FireOnErrorEmitter aForwardingChannel)] |} |}).
Proof.
  apply (proj2 (socket_error_surfaced unit badPort (initialState tt (jarOptions None))
           aForwardingChannel (MkError "ECONNREFUSED") eq_refl eq_refl)).
Defined.

Lemma default_port_unusable_witness :
  promiseState onReadyDeferred_promise
    (exec (launch onDisk spawnSucceeds) (initialState tt jarOnlyOptions))
  = Deferred.rejected (launchPortError NaN)
  /\ connect badPort aForwardingChannel (initialState tt jarOnlyOptions)
     = (Throw (connectPortError NaN), initialState tt jarOnlyOptions).
Proof.
  pose proof (default_port_unusable unit tt onDisk spawnSucceeds badPort jarOnlyOptions
                aForwardingChannel eq_refl)
    as (_ & _ & _ & Hport & _ & _ & Hconnect).
  split; [exact (Hport eq_refl eq_refl) | exact Hconnect].
Defined.

(** C10, as stated, fails: a contribution that supplies neither socket
    options nor an executable is rejected with the missing-executable error,
    not with the port error. *)
Lemma default_port_unusable_counterexample :
  let st := initialState tt noOptions in
  socketConnectionOptions_opt noOptions = None
  /\ promiseState onReadyDeferred_promise (exec (launch onDisk spawnSucceeds) st)
     = Deferred.rejected noExecutableError
  /\ promiseState onReadyDeferred_promise (exec (launch onDisk spawnSucceeds) st)
     <> Deferred.rejected (launchPortError NaN).
Proof. repeat split. discriminate. Qed.

(** * Concrete runs of the further properties *)

Arguments executable_opt {ServerContributionOptions} _.

Lemma getPort_key_spellings_witness :
  getPort ["node"; "--WF_GLSP=5007"] "--WF_GLSP" None
  = getPort ["node"; "--WF_GLSP=5007"] "WF_GLSP" None.
Proof.
  apply (proj1 (getPort_key_spellings ["node"; "--WF_GLSP=5007"] "WF_GLSP" None
                  eq_refl eq_refl)).
Defined.

Lemma getPort_malformed_value_witness :
  getPort ["node"; "--port=auto"; "--port=8081"] "port" (Some (Num 5007)) = NaN.
Proof.
  apply (getPort_malformed_value ["node"; "--port=auto"; "--port=8081"]
           ["node"] ["--port=8081"] "port" "auto" (Some (Num 5007)) eq_refl).
  - intros a [<-|[]]. reflexivity.
  - right. exists "a"%char, "uto"%string. repeat split; discriminate.
Defined.

Lemma getPort_reads_back_witness :
  getPort ["node"; "--port=-70000 "] "port" None = Num (-70000).
Proof.
  apply (getPort_reads_back ["node"; "--port=-70000 "] ["node"] [] "port" " "
           (-70000) None eq_refl eq_refl).
  - intros a [<-|[]]. reflexivity.
  - right. exists " "%char, ""%string. split; reflexivity.
Defined.

Lemma sentinel_must_lead_witness :
  processLogInfo " [GLSP-Server]:Startup completed" (initialState tt noOptions)
  = (Normal tt, initialState tt noOptions).
Proof.
  apply (sentinel_must_lead unit " [GLSP-Server]:Startup completed"
           (initialState tt noOptions)).
  right. exists " "%char, "[GLSP-Server]:Startup completed"%string.
  split; [reflexivity | discriminate].
Defined.

Lemma settled_future_is_final_witness :
  let ready :=
    exec (processLogInfo "[GLSP-Server]:Startup completed")
      (initialState tt noOptions) in
  promiseState onReadyDeferred_promise (exec (launch onDisk spawnSucceeds) ready)
  = Deferred.resolved.
Proof.
  apply (proj1 (settled_future_is_final unit onDisk spawnSucceeds badPort
                  (exec (processLogInfo "[GLSP-Server]:Startup completed")
                     (initialState tt noOptions))
                  aForwardingChannel ""%string
                  (fun E => match E in _ = d
                                  return match d with
                                         | Deferred.unresolved => False
                                         | _ => True
                                         end
                            with eq_refl => I end))).
Defined.

Lemma launch_then_output_witness :
  promiseState onReadyDeferred_promise
    (exec (runEvents processLogInfo ["Starting"; "[GLSP-Server]:Startup completed"])
       (exec (launch onDisk spawnSucceeds) (initialState tt (jarOptions None))))
  = Deferred.resolved.
Proof.
  apply (proj2 (proj1 (launch_then_output unit onDisk spawnSucceeds
                         (initialState tt (jarOptions None))
                         ["Starting"; "[GLSP-Server]:Startup completed"] eq_refl)
                  eq_refl)).
Defined.

Lemma connect_each_own_socket_witness :
  effects
    (world
       (exec (runEvents (connect badPort) [aForwardingChannel; aForwardingChannel])
          (initialState tt (jarOptions None))))
  = [SocketCreate 0; SocketConnect 0 {| port := Num 5007; host := None |};
     SocketCreate 1; SocketConnect 1 {| port := Num 5007; host := None |}].
Proof.
  apply (proj1 (proj2 (connect_each_own_socket unit badPort
                         [aForwardingChannel; aForwardingChannel]
                         (initialState tt (jarOptions None)) eq_refl))).
Defined.

Lemma socket_errors_stay_apart_witness :
  let ch2 := {| channelId := 2; instanceofForwardingChannel := true |} in
  let st' :=
    exec (connect badPort ch2)
      (exec (connect badPort aForwardingChannel) (initialState tt (jarOptions None))) in
  emitSocketError 0 (MkError "ECONNRESET") st'
  = (Normal tt,
     {| this := this st';
        world :=
          perform (ChannelErrorEvent aForwardingChannel (MkError "ECONNRESET"))
            (world st') |}).
Proof.
  apply (proj1 (socket_errors_stay_apart unit badPort
                  (initialState tt (jarOptions None)) aForwardingChannel
                  {| channelId := 2; instanceofForwardingChannel := true |}
                  (MkError "ECONNRESET") eq_refl eq_refl eq_refl eq_refl eq_refl)).
Defined.

Lemma launch_needs_options_witness :
  exists exe sco,
    executable_opt (jarOptions (@None string)) = Some exe
    /\ exe <> ""%string
    /\ onDisk exe = true
    /\ (endsWith exe ".jar" = true \/ endsWith exe ".js" = true)
    /\ socketConnectionOptions_opt (jarOptions (@None string)) = Some sco
    /\ isNaN (port sco) = false.
Proof.
  apply (launch_needs_options unit tt onDisk spawnSucceeds (jarOptions None)).
  discriminate.
Defined.

Lemma connect_needs_port_only_witness :
  effects
    (world
       (exec (connect badPort aForwardingChannel)
          (initialState tt
             {| inherited_opt := @None unit;
                executable_opt := None;
                socketConnectionOptions_opt :=
                  Some {| port := Num 5007; host := Some "localhost" |};
                additionalArgs_opt := None |})))
  = [SocketCreate 0;
     SocketConnect 0 {| port := Num 5007; host := Some "localhost" |}].
Proof.
  apply (proj1 (proj2 (connect_needs_port_only unit tt badPort
                  {| inherited_opt := @None unit;
                     executable_opt := None;
                     socketConnectionOptions_opt :=
                       Some {| port := Num 5007; host := Some "localhost" |};
                     additionalArgs_opt := None |}
                  aForwardingChannel))
           {| port := Num 5007; host := Some "localhost" |} eq_refl eq_refl).
Defined.

Lemma launch_passes_port_witness :
  exists command back token,
    effects
      (world
         (exec (launch onDisk spawnSucceeds) (initialState tt (jarOptions None))))
    = [Spawn command
         (["--add-opens"; "java.base/java.util=ALL-UNNAMED"; "-jar";
           "/opt/glsp/server.jar"]
            ++ "--port" :: token :: back)]
    /\ token <> "NaN"%string
    /\ parseInt10 token = Num 5007.
Proof.
  apply (proj2 (launch_passes_port unit onDisk spawnSucceeds
                  (initialState tt (jarOptions None)) eq_refl eq_refl)).
Defined.

Lemma getPort_zero_from_argument_witness :
  exists token,
    In token ["node"; "--port=0"] /\ startsWith token (normalizedKey "port") = true.
Proof.
  apply (getPort_zero_from_argument ["node"; "--port=0"] "port" (Some (Num 5007))
           eq_refl).
Defined.
